(** * thriftcheck: the circular-import check ([checks/circular_imports.go])

    A shallow embedding of the import-graph builder (the visit function of
    [CheckCircularImport]), of the vertex-id table ([getFilenameId]) and of
    the finalize-time cycle detector ([lookForCycle], [findCycleVertices],
    [dfs]), followed by the properties of the specification that concern
    them.

    Modelling conventions.
    - Go's [int] is taken at its 64-bit width: a [Z] whose additions and
      subtractions are wrapped by [wrap].
    - Go maps are [gmap]s; a [map[int]bool] that is only ever set to [true]
      is a [gset].  Reading a missing key gives the zero value ([deg],
      [default]).
    - The order in which [range] yields the keys of a map is not fixed by
      the language: every such loop takes the key order as an explicit
      list argument, and theorems quantify over the permutations of the keys.
    - [os.Getwd], [filepath.Abs] and [filepath.Rel] are fields of an
      environment record [FS].
    - The worklist loop and the recursive [dfs] take a fuel argument;
      [None] means that the fuel ran out, never that the code returned. *)

From stdpp Require Import gmap strings list fin_maps fin_sets.
From Stdlib Require Import ZArith Lia.

(** ** Machine integers *)

Module Int.

Definition min_int : Z := (- 2 ^ 63)%Z.
Definition max_int : Z := (2 ^ 63 - 1)%Z.

(** Two's complement wrap-around of a 64-bit signed integer. *)
Definition wrap (z : Z) : Z := ((z + 2 ^ 63) `mod` 2 ^ 64 - 2 ^ 63)%Z.

Definition add (a b : Z) : Z := wrap (a + b).
Definition sub (a b : Z) : Z := wrap (a - b).

Definition in_range (z : Z) : Prop := (min_int ≤ z ≤ max_int)%Z.

End Int.

(** ** Data model *)

(** [ast.Include]: the include path as written and its source position. *)
Record Include := mkInclude {
  Path : string;
  Line : Z;
  Column : Z;
}.

(** The shared state [C] of the check. *)
Record C := mkC {
  adjList : gmap Z (list Z);
  edgeMeta : gmap Z (gmap Z Include);
  inDegrees : gmap Z Z;
  filenameToId : gmap string Z;
  idToFilename : gmap Z string;
}.

(** The context created by [CheckCircularImport]: five empty maps. *)
Definition circularImportCtx : C := mkC ∅ ∅ ∅ ∅ ∅.

Definition set_adjList (m : gmap Z (list Z)) (c : C) : C :=
  mkC m (edgeMeta c) (inDegrees c) (filenameToId c) (idToFilename c).
Definition set_edgeMeta (m : gmap Z (gmap Z Include)) (c : C) : C :=
  mkC (adjList c) m (inDegrees c) (filenameToId c) (idToFilename c).
Definition set_inDegrees (m : gmap Z Z) (c : C) : C :=
  mkC (adjList c) (edgeMeta c) m (filenameToId c) (idToFilename c).

(** [inDegrees[v]] and [adjList[v]] as Go reads them: zero value when the
    key is missing. *)
Definition deg (inDeg : gmap Z Z) (v : Z) : Z := default 0%Z (inDeg !! v).
Definition succs (adj : gmap Z (list Z)) (v : Z) : list Z := default [] (adj !! v).

(** ** Path normalisation *)

(** The operating-system services used by [getRelPath]; [None] is a
    non-nil [error]. *)
Record FS := mkFS {
  getwd : option string;
  abs : string → option string;
  rel : string → string → option string;
}.

Definition getRelPath (E : FS) (f : string) : option string :=
  match getwd E with
  | None => None
  | Some wd =>
      match abs E f with
      | None => None
      | Some absP => rel E wd absP
      end
  end.

(** ** Vertex ids *)

Definition getFilenameId (c : C) (f : string) : C * Z :=
  let c' :=
    match filenameToId c !! f with
    | Some _ => c
    | None =>
        let nextId := Int.add (Z.of_nat (size (filenameToId c))) 1 in
        mkC (adjList c) (edgeMeta c) (inDegrees c)
            (<[f := nextId]> (filenameToId c))
            (<[nextId := f]> (idToFilename c))
    end in
  (c', default 0%Z (filenameToId c' !! f)).

(** ** The visit function *)

(** Body of [for _, v := range []int{a, b}]. *)
Definition ensure_vertex (cc : C) (v : Z) : C :=
  match adjList cc !! v with
  | Some _ => cc
  | None =>
      set_adjList (<[v := []]> (adjList cc))
        (set_inDegrees (<[v := 0%Z]> (inDegrees cc)) cc)
  end.

(** The part of the visit function that follows the two id lookups:
    [a] imports [b] through the include node [i]. *)
Definition insert_edge (cc : C) (a b : Z) (i : Include) : C :=
  let cc := foldl ensure_vertex cc [a; b] in
  let cc := set_inDegrees (<[b := Int.add (deg (inDegrees cc) b) 1]> (inDegrees cc)) cc in
  let cc := set_adjList (<[a := succs (adjList cc) a ++ [b]]> (adjList cc)) cc in
  match edgeMeta cc !! a with
  | Some _ => cc
  | None => set_edgeMeta (<[a := {[ b := i ]}]> (edgeMeta cc)) cc
  end.

(** The in-degree that [insert_edge] increments: the stored one, or zero
    for a vertex that [ensure_vertex] has yet to add. *)
Definition old_deg (cc : C) (v : Z) : Z :=
  match adjList cc !! v with
  | Some _ => deg (inDegrees cc) v
  | None => 0%Z
  end.

(** The part of the visit function that follows the two normalisations. *)
Definition add_edge (cc : C) (importer importee : string) (i : Include) : C :=
  let '(cc, a) := getFilenameId cc importer in
  let '(cc, b) := getFilenameId cc importee in
  insert_edge cc a b i.

(** [fn(c, cc, i)], where [filename] is [c.Filename]. *)
Definition visit (E : FS) (cc : C) (filename : string) (i : Include) : C :=
  match getRelPath E filename with
  | None => cc
  | Some importer =>
      match getRelPath E (Path i) with
      | None => cc
      | Some importee => add_edge cc importer importee i
      end
  end.

(** A run of the accumulating phase: the visit function applied to every
    include node, in the order of the driver. *)
Definition run (E : FS) (visits : list (string * Include)) : C :=
  foldl (λ cc '(f, i), visit E cc f i) circularImportCtx visits.

(** ** The topological pass of [lookForCycle] *)

(** The first loop: [ks] is the order in which [range adjList] yields
    the keys. *)
Definition initial_sources (ks : list Z) (inDeg : gmap Z Z) : Z * list Z :=
  foldl (λ '(count, sources) v,
           if decide (deg inDeg v = 0%Z)
           then (Int.add count 1, sources ++ [v])
           else (count, sources))
        (0%Z, []) ks.

(** The variables updated by the body of the worklist loop. *)
Record kahn := mkKahn {
  k_inDeg : gmap Z Z;
  k_count : Z;
  k_new : list Z;
}.

(** Body of [for _, v := range adjList[source]].  The next worklist is
    [append(sources, v)]: the current worklist with [v] at its end. *)
Definition relax (sources : list Z) (st : kahn) (v : Z) : kahn :=
  let d := Int.sub (deg (k_inDeg st) v) 1 in
  let inDeg := <[v := d]> (k_inDeg st) in
  if decide (d = 0%Z)
  then mkKahn inDeg (Int.add (k_count st) 1) (sources ++ [v])
  else mkKahn inDeg (k_count st) (k_new st).

(** Body of [for _, source := range sources]. *)
Definition process_source (adj : gmap Z (list Z)) (sources : list Z)
    (st : kahn) (source : Z) : kahn :=
  foldl (relax sources) st (succs adj source).

(** One iteration of [for len(sources) != 0]. *)
Definition generation (adj : gmap Z (list Z)) (sources : list Z)
    (inDeg : gmap Z Z) (count : Z) : kahn :=
  foldl (process_source adj sources) (mkKahn inDeg count []) sources.

Fixpoint kahn_loop (fuel : nat) (adj : gmap Z (list Z)) (inDeg : gmap Z Z)
    (count : Z) (sources : list Z) : option (gmap Z Z * Z) :=
  match sources with
  | [] => Some (inDeg, count)
  | _ :: _ =>
      match fuel with
      | O => None
      | S fuel' =>
          let st := generation adj sources inDeg count in
          kahn_loop fuel' adj (k_inDeg st) (k_count st) (k_new st)
      end
  end.

(** The two loops together: the final in-degree map and [count]. *)
Definition kahn_pass (fuel : nat) (ks : list Z) (adj : gmap Z (list Z))
    (inDeg : gmap Z Z) : option (gmap Z Z * Z) :=
  let '(count, sources) := initial_sources ks inDeg in
  kahn_loop fuel adj inDeg count sources.

(** ** Cycle extraction *)

(** [for i, v := range vertices { if v == cur { return vertices[i:] } }] *)
Fixpoint suffix_from (cur : Z) (vertices : list Z) : option (list Z) :=
  match vertices with
  | [] => None
  | v :: rest => if decide (v = cur) then Some vertices else suffix_from cur rest
  end.

(** The result of [dfs]: the slice it returns ([None] for [nil]) and the
    two visited sets as the call leaves them. *)
Definition dfs_result : Type := option (list Z) * gset Z * gset Z.

(** [for _, v := range adjList[cur]] of [dfs], over the recursive call. *)
Fixpoint dfs_children (rec : Z → list Z → gset Z → gset Z → option dfs_result)
    (path : list Z) (vs : list Z) (vis gvis : gset Z) : option dfs_result :=
  match vs with
  | [] => Some (None, vis, gvis)
  | v :: vs' =>
      match rec v path vis gvis with
      | None => None
      | Some (Some r, vis', gvis') => Some (Some r, vis', gvis')
      | Some (None, vis', gvis') => dfs_children rec path vs' vis' gvis'
      end
  end.

Fixpoint dfs (fuel : nat) (adj : gmap Z (list Z)) (cur : Z) (vertices : list Z)
    (vis gvis : gset Z) : option dfs_result :=
  match fuel with
  | O => None
  | S fuel' =>
      match (if decide (cur ∈ vis) then suffix_from cur vertices else None) with
      | Some vs => Some (Some vs, vis, gvis)
      | None =>
          if decide (cur ∈ gvis) then Some (None, vis, gvis)
          else dfs_children (dfs fuel' adj) (vertices ++ [cur]) (succs adj cur)
                 ({[cur]} ∪ vis) ({[cur]} ∪ gvis)
      end
  end.

(** What a call returns: a value, or a run-time panic. *)
Inductive outcome (A : Type) : Type :=
  | Returned (a : A)
  | Panicked (msg : string).
Arguments Returned {A} a.
Arguments Panicked {A} msg.

(** The loop of [findCycleVertices] over the keys still to try. *)
Fixpoint find_from (fuel : nat) (adj : gmap Z (list Z)) (ks : list Z)
    (gvis : gset Z) : option (outcome (list Z)) :=
  match ks with
  | [] => Some (Panicked "unreachable (expected a cycle to exist)")
  | v :: ks' =>
      match dfs fuel adj v [] ∅ gvis with
      | None => None
      | Some (Some vs, _, _) => Some (Returned vs)
      | Some (None, _, gvis') => find_from fuel adj ks' gvis'
      end
  end.

Definition findCycleVertices (fuel : nat) (ks : list Z) (adj : gmap Z (list Z))
    : option (outcome (list Z)) :=
  find_from fuel adj ks ∅.

(** [lookForCycle]: the in-degree map as the call leaves it, and what the
    call returns.  [ks1] and [ks2] are the key orders of the two [range]
    loops over [adjList]. *)
Definition lookForCycle (fuel : nat) (ks1 ks2 : list Z) (adj : gmap Z (list Z))
    (inDeg : gmap Z Z) : option (gmap Z Z * outcome (option (list Z) * bool)) :=
  match kahn_pass fuel ks1 adj inDeg with
  | None => None
  | Some (inDeg', count) =>
      if decide (count ≠ Z.of_nat (size adj))
      then match findCycleVertices fuel ks2 adj with
           | None => None
           | Some (Returned vs) => Some (inDeg', Returned (Some vs, true))
           | Some (Panicked msg) => Some (inDeg', Panicked msg)
           end
      else Some (inDeg', Returned (None, false))
  end.

(** ** Finalize *)

(** One line of the trace printed by finalize: the header, or one edge
    [d_from -> d_to] with the importing file and the include node used. *)
Record Diag := mkDiag {
  d_from : Z;
  d_to : Z;
  d_file : string;
  d_inc : Include;
}.

Inductive line : Type :=
  | CycleDetected
  | EdgeLine (d : Diag).

(** [cc.edgeMeta[a][b]]; [None] is the nil pointer. *)
Definition edge_include (cc : C) (a b : Z) : option Include :=
  edgeMeta cc !! a ≫= λ m, m !! b.

(** What finalize printed, and whether it returned or panicked. *)
Inductive result : Type :=
  | Done (out : list line)
  | Panic (out : list line) (msg : string).

(** [for i, im := range imports], from index [i] on, [todo] being
    [imports[i:]] and [out] the lines printed so far. *)
Fixpoint report (cc : C) (imports : list Z) (i : nat) (todo : list Z)
    (out : list line) : result :=
  match todo with
  | [] => Done out
  | im :: todo' =>
      let next := default 0%Z (imports !! ((i + 1) `mod` length imports)%nat) in
      match edge_include cc im next with
      | None => Panic out "invalid memory address or nil pointer dereference"
      | Some inc =>
          let d := mkDiag im next (default "" (idToFilename cc !! im)) inc in
          report cc imports (S i) todo' (out ++ [EdgeLine d])
      end
  end.

(** The finalize function: its output and the state it leaves. *)
Definition finalize (fuel : nat) (ks1 ks2 : list Z) (cc : C) : option (result * C) :=
  match lookForCycle fuel ks1 ks2 (adjList cc) (inDegrees cc) with
  | None => None
  | Some (inDeg', r) =>
      let cc' := set_inDegrees inDeg' cc in
      match r with
      | Panicked msg => Some (Panic [] msg, cc')
      | Returned (imports, cycle) =>
          if cycle
          then let imports := default [] imports in
               Some (report cc' imports 0 imports [CycleDetected], cc')
          else Some (Done [], cc')
      end
  end.

(** ** Vocabulary of the specification *)

(** [ks] is an order in which [range m] may yield the keys of [m]. *)
Definition range_order {A} (m : gmap Z A) (ks : list Z) : Prop :=
  ks ≡ₚ (map_to_list m).*1.

(** The import graph held in an adjacency map. *)
Definition edge (adj : gmap Z (list Z)) (u v : Z) : Prop := v ∈ succs adj u.

Definition cyclic (adj : gmap Z (list Z)) : Prop := ∃ v, tc (edge adj) v v.
Definition acyclic (adj : gmap Z (list Z)) : Prop := ∀ v, ¬ tc (edge adj) v v.

(** Number of parallel edges from [a] to [b]. *)
Definition edge_count (adj : gmap Z (list Z)) (a b : Z) : nat :=
  length (filter (λ v, v = b) (succs adj a)).

(** The include nodes of a run whose two paths normalise, with the
    normalised importer and importee. *)
Definition insertions (E : FS) (visits : list (string * Include))
    : list (string * string * Include) :=
  omap (λ '(f, i),
          match getRelPath E f, getRelPath E (Path i) with
          | Some importer, Some importee => Some (importer, importee, i)
          | _, _ => None
          end) visits.

(** Number of edge insertions that target the file [p]. *)
Definition hits_of (p : string) (ins : list (string * string * Include)) : nat :=
  length (filter (λ e, e.1.2 = p) ins).

(** Number of edge insertions of a run that target the file [p]. *)
Definition hits (E : FS) (p : string) (visits : list (string * Include)) : nat :=
  hits_of p (insertions E visits).

(** The state after a sequence of edge insertions. *)
Definition build (ins : list (string * string * Include)) : C :=
  foldl (λ cc e, add_edge cc e.1.1 e.1.2 e.2) circularImportCtx ins.

(** The id table holds exactly the paths of [seen], the path at index [k]
    under the id [k + 1]. *)
Record ids_inv (seen : list string) (c : C) : Prop := {
  ids_nodup : NoDup seen;
  ids_size : size (filenameToId c) = length seen;
  ids_lookup : ∀ f v,
    filenameToId c !! f = Some v ↔
    ∃ k, seen !! k = Some f ∧ v = (Z.of_nat k + 1)%Z;
}.

(** The vertices whose in-degree is positive. *)
Definition positive (inDeg : gmap Z Z) : gset Z :=
  dom (filter (λ kv, (0 < kv.2)%Z) inDeg).

(** What holds of the variables of the worklist loop after at most [n]
    decrements of one generation over the worklist [sources]: [lo] is a
    lower bound of the in-degrees and [P0] the set of the vertices of
    positive in-degree, both at the start of the generation. *)
Record gen_inv (sources : list Z) (lo : Z) (P0 : gset Z) (n : nat)
    (st : kahn) : Prop := {
  gen_range : ∀ u, (lo - Z.of_nat n ≤ deg (k_inDeg st) u ≤ Int.max_int)%Z;
  gen_positive : positive (k_inDeg st) ⊆ P0;
  gen_new : k_new st = [] ∨
            ((∃ w, w ∈ P0 ∧ w ∉ positive (k_inDeg st)) ∧
             length (k_new st) = S (length sources));
}.

(** The invariant of the accumulated state after the insertions [ins]. *)
Record graph_inv (ins : list (string * string * Include)) (cc : C) : Prop := {
  inv_ids : ∃ seen, ids_inv seen cc ∧ length seen ≤ 2 * length ins;
  inv_seen : ∀ e, e ∈ ins → is_Some (filenameToId cc !! e.1.2);
  inv_vertex : ∀ v,
    is_Some (adjList cc !! v) ↔ ∃ p, filenameToId cc !! p = Some v;
  inv_keys : ∀ v, is_Some (inDegrees cc !! v) ↔ is_Some (adjList cc !! v);
  inv_vsize : size (adjList cc) ≤ 2 * length ins;
  inv_deg : ∀ p v,
    filenameToId cc !! p = Some v →
    inDegrees cc !! v = Some (Z.of_nat (hits_of p ins));
  inv_targets : ∀ u l v,
    adjList cc !! u = Some l → v ∈ l → is_Some (adjList cc !! v);
  inv_length : ∀ u l, adjList cc !! u = Some l → length l ≤ length ins;
}.

(** A sequence of [getFilenameId] calls: the final state and the ids
    returned, in call order. *)
Fixpoint lookups (c : C) (fs : list string) : C * list Z :=
  match fs with
  | [] => (c, [])
  | f :: fs' =>
      let '(c1, n) := getFilenameId c f in
      let '(c2, ns) := lookups c1 fs' in
      (c2, n :: ns)
  end.

(** The distinct paths of a call sequence in order of first sight, given
    those [seen] before. *)
Fixpoint first_seen_from (seen : list string) (fs : list string) : list string :=
  match fs with
  | [] => seen
  | f :: fs' =>
      first_seen_from (if decide (f ∈ seen) then seen else seen ++ [f]) fs'
  end.

Definition first_seen (fs : list string) : list string := first_seen_from [] fs.

(** *** The worklist pass as section 4.4 of the specification words it

    Two separate worklists: a neighbour whose in-degree reaches zero joins
    the next worklist, and [processedCount] counts the vertices taken from
    the current one.  Used only for comparison with [kahn_pass]. *)

Definition spec_relax (st : kahn) (v : Z) : kahn :=
  let d := Int.sub (deg (k_inDeg st) v) 1 in
  let inDeg := <[v := d]> (k_inDeg st) in
  mkKahn inDeg (k_count st) (if decide (d = 0%Z) then k_new st ++ [v] else k_new st).

Definition spec_process (adj : gmap Z (list Z)) (st : kahn) (source : Z) : kahn :=
  foldl spec_relax
        (mkKahn (k_inDeg st) (Int.add (k_count st) 1) (k_new st))
        (succs adj source).

Fixpoint spec_kahn_loop (fuel : nat) (adj : gmap Z (list Z)) (inDeg : gmap Z Z)
    (count : Z) (worklist : list Z) : option (gmap Z Z * Z) :=
  match worklist with
  | [] => Some (inDeg, count)
  | _ :: _ =>
      match fuel with
      | O => None
      | S fuel' =>
          let st := foldl (spec_process adj) (mkKahn inDeg count []) worklist in
          spec_kahn_loop fuel' adj (k_inDeg st) (k_count st) (k_new st)
      end
  end.

Definition spec_kahn_pass (fuel : nat) (ks : list Z) (adj : gmap Z (list Z))
    (inDeg : gmap Z Z) : option (gmap Z Z * Z) :=
  spec_kahn_loop fuel adj inDeg 0%Z (filter (λ v, deg inDeg v = 0%Z) ks).

(** ** Vocabulary of the further properties *)

(** Each vertex of [l] has an edge to the next one. *)
Definition chain (adj : gmap Z (list Z)) (l : list Z) : Prop :=
  ∀ i u v, l !! i = Some u → l !! S i = Some v → edge adj u v.

(** [vs] is a cycle of the graph: not empty, each vertex has an edge to the
    next one, and the last one has an edge to the first. *)
Definition is_cycle (adj : gmap Z (list Z)) (vs : list Z) : Prop :=
  vs ≠ [] ∧
  ∀ i u v, vs !! i = Some u → vs !! ((i + 1) `mod` length vs) = Some v →
           edge adj u v.

(** A cycle that visits no vertex twice. *)
Definition simple_cycle (adj : gmap Z (list Z)) (vs : list Z) : Prop :=
  is_cycle adj vs ∧ NoDup vs.

(** [fin] lists vertices so that each one comes after all its successors:
    the order in which a depth-first search leaves them. *)
Definition finished (adj : gmap Z (list Z)) (fin : list Z) : Prop :=
  ∀ i u v, fin !! i = Some u → v ∈ succs adj u → ∃ j, j < i ∧ fin !! j = Some v.

(** The lines that finalize printed. *)
Definition printed (r : result) : list line :=
  match r with
  | Done out => out
  | Panic out _ => out
  end.

(** The state of the search between two calls: [fin] holds the vertices
    that the search has left, [path] those it is still below. *)
Record search_inv (adj : gmap Z (list Z)) (fin path : list Z)
    (vis gvis : gset Z) : Prop := {
  search_fin : finished adj fin;
  search_gvis : ∀ x, x ∈ gvis ↔ x ∈ fin ∨ x ∈ path;
  search_path : ∀ x, x ∈ path → x ∈ vis;
  search_vis : vis ⊆ gvis;
}.

(** What a call that returns [nil] leaves. *)
Definition left_ok (adj : gmap Z (list Z)) (fin path : list Z)
    (vis : gset Z) (cur : list Z) (res : dfs_result) : Prop :=
  ∃ ext, search_inv adj (fin ++ ext) path res.1.2 res.2 ∧
         vis ⊆ res.1.2 ∧ ∀ v, v ∈ cur → v ∈ fin ++ ext.

(** The insertions whose importer is the file [p], in visit order. *)
Definition insertions_from (p : string)
    (ins : list (string * string * Include)) : list (string * string * Include) :=
  filter (λ e, e.1.1 = p) ins.

(** How the accumulated state records the insertions [ins]: the two id
    tables are inverse to each other, the adjacency list of a file holds
    the ids of the files it included, one per insertion and in visit order,
    and its entry of [edgeMeta] holds the include node of its first
    insertion. *)
Record trace_inv (ins : list (string * string * Include)) (cc : C) : Prop := {
  tr_importer : ∀ e, e ∈ ins → is_Some (filenameToId cc !! e.1.1);
  tr_back : ∀ v p,
    idToFilename cc !! v = Some p ↔ filenameToId cc !! p = Some v;
  tr_adj : ∀ p a,
    filenameToId cc !! p = Some a →
    Forall2 (λ v e, filenameToId cc !! e.1.2 = Some v)
            (succs (adjList cc) a) (insertions_from p ins);
  tr_meta_keys : ∀ a,
    is_Some (edgeMeta cc !! a) → ∃ p, filenameToId cc !! p = Some a;
  tr_meta : ∀ p a,
    filenameToId cc !! p = Some a →
    edgeMeta cc !! a
    = match head (insertions_from p ins) with
      | Some e => (λ b, {[ b := e.2 ]}) <$> filenameToId cc !! e.1.2
      | None => None
      end;
}.

(** The visit function applied to the include nodes [visits], from the
    state [cc] on. *)
Definition run_from (E : FS) (cc : C) (visits : list (string * Include)) : C :=
  foldl (λ cc '(f, i), visit E cc f i) cc visits.

(** In the worklist loop, [count] and the number of vertices of positive
    in-degree add up to [N]. *)
Definition counted (N : Z) (inDeg : gmap Z Z) (count : Z) : Prop :=
  (0 ≤ count)%Z ∧ (count + Z.of_nat (size (positive inDeg)) = N)%Z.

(** [inDeg] has the keys of [inDeg0] and no larger value at any of them. *)
Definition lowered (inDeg0 inDeg : gmap Z Z) : Prop :=
  dom inDeg = dom inDeg0 ∧ ∀ u, (deg inDeg u ≤ deg inDeg0 u)%Z.


(** What one generation over the worklist [sources] has put in
    [newSources] so far: nothing, or [sources] followed by a vertex that
    had a positive in-degree at the start of the generation (it is in [P0])
    and has none now. *)
Definition appended (sources : list Z) (P0 : gset Z) (st : kahn) : Prop :=
  k_new st = [] ∨
  ∃ w, w ∈ P0 ∧ (w ∉ positive (k_inDeg st)) ∧ k_new st = sources ++ [w].

(** ** Sample inputs *)

Module Sample.

Open Scope string_scope.

(** [strip pre s]: [s] without its prefix [pre]. *)
Definition strip (pre s : string) : option string :=
  if String.prefix pre s
  then Some (String.substring (String.length pre)
               (String.length s - String.length pre) s)
  else None.

(** A small environment: the working directory is [/w]; a relative path
    is taken below it, a leading [./] being dropped; a path outside [/w]
    cannot be made relative. *)
Definition fs : FS := {|
  getwd := Some "/w";
  abs f := Some (if String.prefix "/" f then f
                 else "/w/" +:+ default f (strip "./" f));
  rel wd p := strip (wd +:+ "/") p;
|}.

Definition inc (p : string) (l : Z) : Include := mkInclude p l 1.

(** [a -> b], [a -> c], [b -> d]: a tree. *)
Definition tree : list (string * Include) :=
  [("a", inc "b" 1); ("a", inc "c" 2); ("b", inc "d" 1)].

(** The same three includes, the two of [a] in the other order. *)
Definition tree' : list (string * Include) :=
  [("a", inc "c" 2); ("a", inc "b" 1); ("b", inc "d" 1)].

(** [a -> x], [a -> b], [b -> c], [c -> b]: a two-cycle with a tail. *)
Definition lasso : list (string * Include) :=
  [("a", inc "x" 1); ("a", inc "b" 2); ("b", inc "c" 1); ("c", inc "b" 1)].

(** [a -> b], [a -> c], [c -> a]: the cycle leaves [a] by its second include. *)
Definition second_edge : list (string * Include) :=
  [("a", inc "b" 1); ("a", inc "c" 2); ("c", inc "a" 1)].

(** [a -> b], [a -> c]: two includes of one file. *)
Definition fan : list (string * Include) :=
  [("a", inc "b" 1); ("a", inc "c" 2)].

(** [a -> b] alone. *)
Definition single : list (string * Include) := [("a", inc "b" 1)].

(** [a] includes [b] twice, under two spellings. *)
Definition twice : list (string * Include) :=
  [("a", inc "b" 1); ("a", inc "./b" 2)].

End Sample.

(** * Properties *)

(** ** Reasoning over the key orders of a concrete map *)

Lemma range_order_elim {A} (m : gmap Z A) (l : list (list Z)) (P : list Z → Prop) :
  permutations (map_to_list m).*1 = l →
  Forall P l →
  ∀ ks, range_order m ks → P ks.
Proof.
  intros <- HP ks Hks. rewrite Forall_forall in HP. apply HP.
  apply permutations_Permutation. by symmetry.
Qed.

(** Proves [∀ ks, range_order m ks → P ks] for a closed map [m] by running
    [tac] on each of the finitely many orders. *)
Ltac each_order tac :=
  lazymatch goal with
  | |- ∀ ks : list Z, range_order ?m ks → @?P ks =>
      eapply (range_order_elim m _ P); [vm_compute; reflexivity|];
      repeat (constructor; [cbv beta; tac|]); apply Forall_nil_2
  end.

Ltac run_code := vm_compute; reflexivity.

(** The same for two nested orders. *)
Ltac each_two_orders tac := each_order ltac:(idtac; each_order tac).

Lemma range_order_length {A} (m : gmap Z A) ks :
  range_order m ks → length ks = size m.
Proof.
  unfold range_order. intros ->. by rewrite length_fmap, length_map_to_list.
Qed.

Lemma range_order_elem_of {A} (m : gmap Z A) ks k :
  range_order m ks → k ∈ ks ↔ is_Some (m !! k).
Proof.
  unfold range_order. intros ->. rewrite list_elem_of_fmap. split.
  - intros [[k' x] [-> Hx]]. apply elem_of_map_to_list in Hx. by exists x.
  - intros [x Hx]. exists (k, x). split; [done|]. by apply elem_of_map_to_list.
Qed.

(** ** Graphs *)

Lemma edge_map_to_list adj u v :
  edge adj u v → ∃ l, (u, l) ∈ map_to_list adj ∧ v ∈ l.
Proof.
  unfold edge, succs. destruct (adj !! u) as [l|] eqn:Hu; simpl.
  - intros Hv. exists l. split; [|done]. by apply elem_of_map_to_list.
  - by intros ?%elem_of_nil.
Qed.

(** A graph whose edges all go from a smaller id to a larger one has no
    cycle. *)
Lemma acyclic_increasing adj :
  (∀ u v, edge adj u v → (u < v)%Z) → acyclic adj.
Proof.
  intros Hlt. assert (∀ u v, tc (edge adj) u v → (u < v)%Z) as Htc.
  { induction 1 as [u v H|u v w H _ IH]; [by apply Hlt|].
    apply Hlt in H. lia. }
  intros v Hv%Htc. lia.
Qed.

(** ** The sample runs, evaluated *)

Section sample_runs.
Import Sample.

Lemma tree_edges :
map_to_list (adjList (run fs tree))
= [(3, []); (4, []); (2, [4]); (1, [2; 3])]%Z.
Proof. run_code. Qed.

Lemma tree'_edges :
map_to_list (adjList (run fs tree'))
= [(3, [4]); (4, []); (2, []); (1, [2; 3])]%Z.
Proof. run_code. Qed.

Lemma tree_acyclic : acyclic (adjList (run fs tree)).
Proof.
apply acyclic_increasing. intros u v (l & Hl & Hv)%edge_map_to_list.
rewrite tree_edges, !elem_of_cons, elem_of_nil in Hl.
destruct_or!; simplify_eq; rewrite ?elem_of_cons, ?elem_of_nil in Hv;
  destruct_or?; lia.
Qed.

Lemma tree'_acyclic : acyclic (adjList (run fs tree')).
Proof.
apply acyclic_increasing. intros u v (l & Hl & Hv)%edge_map_to_list.
rewrite tree'_edges, !elem_of_cons, elem_of_nil in Hl.
destruct_or!; simplify_eq; rewrite ?elem_of_cons, ?elem_of_nil in Hv;
  destruct_or?; lia.
Qed.

Lemma lasso_cyclic : cyclic (adjList (run fs lasso)).
Proof.
exists 3%Z. apply tc_l with 4%Z; [|apply tc_once];
  unfold edge; by apply (bool_decide_unpack _); vm_compute.
Qed.

Lemma second_edge_cyclic : cyclic (adjList (run fs second_edge)).
Proof.
exists 1%Z. apply tc_l with 3%Z; [|apply tc_once];
  unfold edge; by apply (bool_decide_unpack _); vm_compute.
Qed.

(** The worklist pass on [tree]: three of the four vertices counted. *)
Lemma tree_kahn_pass ks :
range_order (adjList (run fs tree)) ks →
snd <$> kahn_pass 8 ks (adjList (run fs tree)) (inDegrees (run fs tree))
= Some 3%Z.
Proof. revert ks. each_order run_code. Qed.

Lemma tree_findCycleVertices ks :
range_order (adjList (run fs tree)) ks →
findCycleVertices 8 ks (adjList (run fs tree))
= Some (Panicked "unreachable (expected a cycle to exist)").
Proof. revert ks. each_order run_code. Qed.

Lemma tree_finalize ks1 ks2 :
range_order (adjList (run fs tree)) ks1 →
range_order (adjList (run fs tree)) ks2 →
fst <$> finalize 8 ks1 ks2 (run fs tree)
= Some (Panic [] "unreachable (expected a cycle to exist)").
Proof.
intros H1 H2. revert ks2 H2. revert ks1 H1.
each_two_orders run_code.
Qed.

Lemma tree'_finalize ks1 ks2 :
range_order (adjList (run fs tree')) ks1 →
range_order (adjList (run fs tree')) ks2 →
fst <$> finalize 8 ks1 ks2 (run fs tree') = Some (Done []).
Proof.
intros H1 H2. revert ks2 H2. revert ks1 H1.
each_two_orders run_code.
Qed.

Lemma tree_spec_kahn_pass ks :
range_order (adjList (run fs tree)) ks →
snd <$> spec_kahn_pass 8 ks (adjList (run fs tree)) (inDegrees (run fs tree))
= Some 4%Z.
Proof. revert ks. each_order run_code. Qed.

Lemma tree_lookForCycle ks1 ks2 :
range_order (adjList (run fs tree)) ks1 →
range_order (adjList (run fs tree)) ks2 →
snd <$> lookForCycle 8 ks1 ks2 (adjList (run fs tree)) (inDegrees (run fs tree))
= Some (Panicked "unreachable (expected a cycle to exist)").
Proof.
intros H1 H2. revert ks2 H2. revert ks1 H1.
each_two_orders run_code.
Qed.

Lemma tree'_lookForCycle ks1 ks2 :
range_order (adjList (run fs tree')) ks1 →
range_order (adjList (run fs tree')) ks2 →
snd <$> lookForCycle 8 ks1 ks2 (adjList (run fs tree')) (inDegrees (run fs tree'))
= Some (Returned (None, false)).
Proof.
intros H1 H2. revert ks2 H2. revert ks1 H1.
each_two_orders run_code.
Qed.

Lemma lasso_finalize ks1 ks2 :
range_order (adjList (run fs lasso)) ks1 →
range_order (adjList (run fs lasso)) ks2 →
fst <$> finalize 8 ks1 ks2 (run fs lasso) = Some (Done []).
Proof.
intros H1 H2. revert ks2 H2. revert ks1 H1.
each_two_orders run_code.
Qed.

Lemma second_edge_finalize ks1 ks2 :
range_order (adjList (run fs second_edge)) ks1 →
range_order (adjList (run fs second_edge)) ks2 →
∃ out, fst <$> finalize 8 ks1 ks2 (run fs second_edge)
       = Some (Panic out "invalid memory address or nil pointer dereference").
Proof.
intros H1 H2. revert ks2 H2. revert ks1 H1.
each_two_orders ltac:(eexists; run_code).
Qed.

End sample_runs.

(** Discharges [range_order m ks] for a closed map and a closed list. *)
Ltac closed_order :=
  unfold range_order; by apply (bool_decide_unpack _); vm_compute.

(** ** The verdict of the topological pass *)

(** Claim C1 (acyclic graphs are reported acyclic, whatever the way the
    worklist is advanced) does not hold of the code.  On the tree
    [a -> b], [a -> c], [b -> d], which has no cycle, and for every order
    in which the two [range] loops yield the four keys: the worklist pass
    ends with [count = 3] against four vertices, so that [lookForCycle]
    takes its cycle branch and finalize ends in the panic of
    [findCycleVertices]; the worklist pass of section 4.4, with a separate
    next worklist, counts all four vertices. *)
Theorem C1_acyclic_tree_reported_cyclic (ks1 ks2 : list Z) :
  let cc := run Sample.fs Sample.tree in
  range_order (adjList cc) ks1 →
  range_order (adjList cc) ks2 →
  acyclic (adjList cc) ∧
  size (adjList cc) = 4 ∧
  snd <$> kahn_pass 8 ks1 (adjList cc) (inDegrees cc) = Some 3%Z ∧
  fst <$> finalize 8 ks1 ks2 cc
  = Some (Panic [] "unreachable (expected a cycle to exist)") ∧
  snd <$> spec_kahn_pass 8 ks1 (adjList cc) (inDegrees cc) = Some 4%Z.
Proof.
  intros cc H1 H2. split; [apply tree_acyclic|].
  split; [by vm_compute|].
  split; [by apply tree_kahn_pass|].
  split; [by apply tree_finalize|by apply tree_spec_kahn_pass].
Qed.

Lemma C1_acyclic_tree_witness :
  let cc := run Sample.fs Sample.tree in
  let ks := [1; 2; 3; 4]%Z in
  acyclic (adjList cc) ∧
  size (adjList cc) = 4 ∧
  snd <$> kahn_pass 8 ks (adjList cc) (inDegrees cc) = Some 3%Z ∧
  fst <$> finalize 8 ks ks cc
  = Some (Panic [] "unreachable (expected a cycle to exist)") ∧
  snd <$> spec_kahn_pass 8 ks (adjList cc) (inDegrees cc) = Some 4%Z.
Proof.
  apply (C1_acyclic_tree_reported_cyclic [1; 2; 3; 4]%Z [1; 2; 3; 4]%Z);
    closed_order.
Defined.

(** Claim C3 (when the topological pass reports a cycle, the depth-first
    search finds one and the panic is never reached) does not hold of
    the code.  On the tree [a -> b], [a -> c], [b -> d], built by the visit
    function, and for every order of the keys: the worklist pass ends with
    a count that differs from the number of vertices, the search of
    [findCycleVertices] returns [nil] from every start vertex, and
    [lookForCycle] ends in [panic("unreachable (expected a cycle to
    exist)")]. *)
Theorem C3_unreachable_panic_reached (ks1 ks2 : list Z) :
  let cc := run Sample.fs Sample.tree in
  range_order (adjList cc) ks1 →
  range_order (adjList cc) ks2 →
  (∃ inDeg' count,
      kahn_pass 8 ks1 (adjList cc) (inDegrees cc) = Some (inDeg', count) ∧
      count ≠ Z.of_nat (size (adjList cc))) ∧
  findCycleVertices 8 ks2 (adjList cc)
  = Some (Panicked "unreachable (expected a cycle to exist)") ∧
  snd <$> lookForCycle 8 ks1 ks2 (adjList cc) (inDegrees cc)
  = Some (Panicked "unreachable (expected a cycle to exist)").
Proof.
  intros cc H1 H2. split; [|split].
  - pose proof (tree_kahn_pass ks1 H1) as Hk. fold cc in Hk.
    destruct (kahn_pass 8 ks1 (adjList cc) (inDegrees cc)) as [[inDeg' count]|];
      [|done].
    exists inDeg', count. split; [done|]. simpl in Hk. simplify_eq.
    by vm_compute.
  - by apply tree_findCycleVertices.
  - by apply tree_lookForCycle.
Qed.

Lemma C3_unreachable_panic_witness :
  let cc := run Sample.fs Sample.tree in
  let ks := [4; 3; 2; 1]%Z in
  (∃ inDeg' count,
      kahn_pass 8 ks (adjList cc) (inDegrees cc) = Some (inDeg', count) ∧
      count ≠ Z.of_nat (size (adjList cc))) ∧
  findCycleVertices 8 ks (adjList cc)
  = Some (Panicked "unreachable (expected a cycle to exist)") ∧
  snd <$> lookForCycle 8 ks ks (adjList cc) (inDegrees cc)
  = Some (Panicked "unreachable (expected a cycle to exist)").
Proof.
  apply (C3_unreachable_panic_reached [4; 3; 2; 1]%Z [4; 3; 2; 1]%Z);
    closed_order.
Defined.

(** Claim C6 (the verdict is the same for every order in which the include
    nodes are visited) does not hold of the code.  [Sample.tree] and
    [Sample.tree'] hold the same three include nodes, the two includes of
    [a] exchanged.  For every order of the keys, [lookForCycle] takes its
    cycle branch (and panics) after the first visit order, and returns
    [(nil, false)] after the second. *)
Theorem C6_verdict_depends_on_visit_order (ks1 ks2 ks1' ks2' : list Z) :
  let cc := run Sample.fs Sample.tree in
  let cc' := run Sample.fs Sample.tree' in
  range_order (adjList cc) ks1 →
  range_order (adjList cc) ks2 →
  range_order (adjList cc') ks1' →
  range_order (adjList cc') ks2' →
  Sample.tree ≡ₚ Sample.tree' ∧
  snd <$> lookForCycle 8 ks1 ks2 (adjList cc) (inDegrees cc)
  = Some (Panicked "unreachable (expected a cycle to exist)") ∧
  snd <$> lookForCycle 8 ks1' ks2' (adjList cc') (inDegrees cc')
  = Some (Returned (None, false)).
Proof.
  intros cc cc' H1 H2 H1' H2'. split; [apply Permutation_swap|].
  split; [by apply tree_lookForCycle|by apply tree'_lookForCycle].
Qed.

Lemma C6_verdict_witness :
  let cc := run Sample.fs Sample.tree in
  let cc' := run Sample.fs Sample.tree' in
  let ks := [1; 2; 3; 4]%Z in
  Sample.tree ≡ₚ Sample.tree' ∧
  snd <$> lookForCycle 8 ks ks (adjList cc) (inDegrees cc)
  = Some (Panicked "unreachable (expected a cycle to exist)") ∧
  snd <$> lookForCycle 8 ks ks (adjList cc') (inDegrees cc')
  = Some (Returned (None, false)).
Proof.
  apply (C6_verdict_depends_on_visit_order
           [1; 2; 3; 4]%Z [1; 2; 3; 4]%Z [1; 2; 3; 4]%Z [1; 2; 3; 4]%Z);
    closed_order.
Defined.

(** Claim C2 (for a graph with a cycle, finalize emits one diagnostic per
    edge of a discovered cycle, each with the recorded include node) does
    not hold of the code.  After [a -> x], [a -> b], [b -> c], [c -> b]
    the graph has the cycle [b -> c -> b], yet the worklist pass counts
    all four vertices and finalize prints nothing.  After [a -> b],
    [a -> c], [c -> a] the cycle [a -> c -> a] is found, but no include
    node is recorded for the edge [a -> c], and finalize dereferences a
    nil pointer.  Both hold for every order of the keys. *)
Theorem C2_cycles_not_reported (ks1 ks2 ks1' ks2' : list Z) :
  let cc := run Sample.fs Sample.lasso in
  let cc' := run Sample.fs Sample.second_edge in
  range_order (adjList cc) ks1 →
  range_order (adjList cc) ks2 →
  range_order (adjList cc') ks1' →
  range_order (adjList cc') ks2' →
  (cyclic (adjList cc) ∧ fst <$> finalize 8 ks1 ks2 cc = Some (Done [])) ∧
  (cyclic (adjList cc') ∧
   ∃ out, fst <$> finalize 8 ks1' ks2' cc'
          = Some (Panic out "invalid memory address or nil pointer dereference")).
Proof.
  intros cc cc' H1 H2 H1' H2'. split; split.
  - apply lasso_cyclic.
  - by apply lasso_finalize.
  - apply second_edge_cyclic.
  - by apply second_edge_finalize.
Qed.

Lemma C2_cycles_witness :
  let cc := run Sample.fs Sample.lasso in
  let cc' := run Sample.fs Sample.second_edge in
  (cyclic (adjList cc) ∧
   fst <$> finalize 8 [1; 2; 3; 4]%Z [1; 2; 3; 4]%Z cc = Some (Done [])) ∧
  (cyclic (adjList cc') ∧
   ∃ out, fst <$> finalize 8 [1; 2; 3]%Z [1; 2; 3]%Z cc'
          = Some (Panic out "invalid memory address or nil pointer dereference")).
Proof.
  apply (C2_cycles_not_reported
           [1; 2; 3; 4]%Z [1; 2; 3; 4]%Z [1; 2; 3]%Z [1; 2; 3]%Z);
    closed_order.
Defined.

(** ** Edge metadata *)

(** Claim C4 (the include node recorded for a pair is the first include
    visited that produced it) does not hold of the code: an include node
    is recorded only for the first edge that leaves an importer.  After
    [a -> b] then [a -> c], both edges are in the adjacency list of [a],
    the include of [b] is recorded for [(a, b)], and nothing is recorded
    for [(a, c)], although no include produced that pair before. *)
Theorem C4_second_include_not_recorded :
  let cc := run Sample.fs Sample.fan in
  filenameToId cc !! "a" = Some 1%Z ∧
  filenameToId cc !! "b" = Some 2%Z ∧
  filenameToId cc !! "c" = Some 3%Z ∧
  adjList cc !! 1%Z = Some [2; 3]%Z ∧
  edge_include cc 1 2 = Some (Sample.inc "b" 1) ∧
  edge_include cc 1 3 = None.
Proof. by vm_compute. Qed.


(** ** Machine integers *)

Lemma wrap_in_range z : Int.in_range z → Int.wrap z = z.
Proof.
  unfold Int.in_range, Int.wrap, Int.min_int, Int.max_int. intros Hz.
  rewrite Z.mod_small; lia.
Qed.

Lemma int_add_small a b :
  Int.in_range (a + b) → Int.add a b = (a + b)%Z.
Proof. apply wrap_in_range. Qed.

Lemma int_sub_small a b :
  Int.in_range (a - b) → Int.sub a b = (a - b)%Z.
Proof. apply wrap_in_range. Qed.

(** ** Vertex ids *)

Section ids.
Implicit Types (c : C) (f g : string) (seen : list string).

Lemma getFilenameId_lookup c f :
filenameToId (getFilenameId c f).1 !! f = Some (getFilenameId c f).2.
Proof.
unfold getFilenameId. destruct (filenameToId c !! f) as [v|] eqn:Hf; simpl.
- by rewrite Hf.
- by rewrite lookup_insert_eq.
Qed.

Lemma getFilenameId_known c f v :
filenameToId c !! f = Some v → getFilenameId c f = (c, v).
Proof. intros Hf. unfold getFilenameId. by rewrite Hf; simpl; rewrite Hf. Qed.

Lemma getFilenameId_preserved c f g v :
filenameToId c !! g = Some v →
filenameToId (getFilenameId c f).1 !! g = Some v.
Proof.
intros Hg. unfold getFilenameId.
destruct (filenameToId c !! f) as [w|] eqn:Hf; simpl; [done|].
rewrite lookup_insert_ne; [done|congruence].
Qed.

Lemma getFilenameId_graph c f :
adjList (getFilenameId c f).1 = adjList c ∧
inDegrees (getFilenameId c f).1 = inDegrees c ∧
edgeMeta (getFilenameId c f).1 = edgeMeta c.
Proof. unfold getFilenameId. by destruct (filenameToId c !! f). Qed.

(** One call of [getFilenameId] on a table that holds [seen]. *)
Lemma getFilenameId_ids_inv seen c f :
ids_inv seen c →
(Z.of_nat (length seen) < Int.max_int)%Z →
let seen' := if decide (f ∈ seen) then seen else seen ++ [f] in
ids_inv seen' (getFilenameId c f).1 ∧
∃ k, seen' !! k = Some f ∧ (getFilenameId c f).2 = (Z.of_nat k + 1)%Z.
Proof.
intros [Hnd Hsz Hlk] Hlen seen'. subst seen'.
destruct (decide (f ∈ seen)) as [Hin|Hnin].
- apply list_elem_of_lookup in Hin as [k Hk].
  assert (filenameToId c !! f = Some (Z.of_nat k + 1)%Z) as Hf
    by (apply Hlk; eauto).
  rewrite (getFilenameId_known _ _ _ Hf). simpl. split; [done|eauto].
- assert (filenameToId c !! f = None) as Hf.
  { destruct (filenameToId c !! f) as [v|] eqn:Hf; [|done].
    apply Hlk in Hf as (k & Hk & _). destruct Hnin.
    apply list_elem_of_lookup; eauto. }
  unfold getFilenameId. rewrite Hf. simpl. rewrite lookup_insert_eq. simpl.
  rewrite Hsz, int_add_small
    by (unfold Int.in_range, Int.min_int, Int.max_int in *; lia).
  split.
  + split; simpl.
    * apply NoDup_app. split_and!; [done| |apply NoDup_singleton].
      intros x Hx ->%list_elem_of_singleton. done.
    * rewrite map_size_insert_None, length_app by done. simpl. lia.
    * intros g v. destruct (decide (g = f)) as [->|Hne].
      -- rewrite lookup_insert_eq. split.
         ++ intros [= <-]. exists (length seen).
            split; [|done]. by rewrite lookup_app_r, Nat.sub_diag by lia.
         ++ intros (k & Hk & ->). f_equal.
            destruct (decide (k < length seen)) as [Hlt|Hge].
            ** rewrite lookup_app_l in Hk by done. destruct Hnin.
               apply list_elem_of_lookup; eauto.
            ** apply lookup_lt_Some in Hk. rewrite length_app in Hk.
               simpl in Hk. f_equal. lia.
      -- rewrite lookup_insert_ne by done. rewrite Hlk.
         split; intros (k & Hk & ->); exists k; (split; [|done]).
         ++ by apply lookup_app_l_Some.
         ++ apply lookup_app_Some in Hk as [Hk|[_ Hk]]; [done|].
            apply list_lookup_singleton_Some in Hk as [_ ?]. congruence.
  + exists (length seen). split; [|done].
    by rewrite lookup_app_r, Nat.sub_diag by lia.
Qed.

End ids.


Section ids_sequence.
Implicit Types (c : C) (f g : string) (seen : list string).

Lemma ids_inv_empty : ids_inv [] circularImportCtx.
Proof.
split; simpl.
- constructor.
- apply map_size_empty.
- intros f v. rewrite lookup_empty. split; [done|].
  by intros (k & Hk & _).
Qed.

Lemma getFilenameId_idempotent c f :
getFilenameId (getFilenameId c f).1 f
= ((getFilenameId c f).1, (getFilenameId c f).2).
Proof. apply getFilenameId_known, getFilenameId_lookup. Qed.

Lemma first_seen_from_length seen fs :
length (first_seen_from seen fs) ≤ length seen + length fs.
Proof.
revert seen. induction fs as [|f fs IH]; intros seen; simpl; [lia|].
etrans; [apply IH|]. case_decide; rewrite ?length_app; simpl; lia.
Qed.

Lemma first_seen_from_lookup seen fs k f :
seen !! k = Some f → first_seen_from seen fs !! k = Some f.
Proof.
revert seen. induction fs as [|g fs IH]; intros seen Hk; simpl; [done|].
apply IH. case_decide; [done|]. by apply lookup_app_l_Some.
Qed.

(** A sequence of calls on a table that holds [seen]. *)
Lemma lookups_ids_inv fs seen c :
ids_inv seen c →
(Z.of_nat (length seen + length fs) < Int.max_int)%Z →
ids_inv (first_seen_from seen fs) (lookups c fs).1 ∧
length (lookups c fs).2 = length fs ∧
∀ i f, fs !! i = Some f →
  ∃ k, first_seen_from seen fs !! k = Some f ∧
       (lookups c fs).2 !! i = Some (Z.of_nat k + 1)%Z.
Proof.
revert seen c. induction fs as [|f fs IH]; intros seen c Hinv Hlen.
{ simpl. split; [done|]. split; [done|]. intros i f. by rewrite lookup_nil. }
simpl in Hlen.
destruct (getFilenameId_ids_inv seen c f Hinv) as [Hinv1 (k0 & Hk0 & Hid)];
  [lia|].
cbn [lookups first_seen_from].
destruct (getFilenameId c f) as [c1 n] eqn:Hcall. simpl in Hinv1, Hid.
set (seen' := if decide (f ∈ seen) then seen else seen ++ [f]) in *.
assert (length seen' ≤ S (length seen)) as Hlen'.
{ subst seen'. case_decide; rewrite ?length_app; simpl; lia. }
destruct (IH seen' c1 Hinv1) as (Hinv2 & Hlen2 & Hids); [lia|].
destruct (lookups c1 fs) as [c2 ns] eqn:Hrest. simpl in *.
split; [done|]. split; [by rewrite Hlen2|].
intros [|i] g Hg; simpl in *.
- simplify_eq. exists k0. split; [|done]. by apply first_seen_from_lookup.
- by apply Hids.
Qed.

End ids_sequence.

(** Claim C9.  Within one run, that is along any sequence [fs] of calls of
    [getFilenameId] on the context created by [CheckCircularImport]
    (shorter than the largest [int]): one id is returned per call; two
    calls with the same path return the same id; the id returned for a
    path is its rank, counted from 1, in the order of first sight, so that
    fresh ids are 1, 2, 3, ... in that order; the table keeps each id to the
    end of the run; and a call repeated at once returns the same id and
    leaves the state as it is. *)
Theorem C9_ids_stable_and_sequential (fs : list string) :
  (Z.of_nat (length fs) < Int.max_int)%Z →
  let ids := (lookups circularImportCtx fs).2 in
  let final := (lookups circularImportCtx fs).1 in
  length ids = length fs ∧
  (∀ i j f, fs !! i = Some f → fs !! j = Some f → ids !! i = ids !! j) ∧
  NoDup (first_seen fs) ∧
  (∀ i f, fs !! i = Some f →
     ∃ k, first_seen fs !! k = Some f ∧ ids !! i = Some (Z.of_nat k + 1)%Z) ∧
  (∀ k f, first_seen fs !! k = Some f →
     filenameToId final !! f = Some (Z.of_nat k + 1)%Z) ∧
  (∀ c f, getFilenameId (getFilenameId c f).1 f
          = ((getFilenameId c f).1, (getFilenameId c f).2)).
Proof.
  intros Hlen ids final.
  destruct (lookups_ids_inv fs [] circularImportCtx ids_inv_empty)
    as (Hinv & Hlen' & Hids); [simpl; lia|].
  fold (first_seen fs) in Hinv, Hids. fold ids in Hlen', Hids.
  fold final in Hinv. destruct Hinv as [Hnd Hsz Hlk].
  split; [done|]. split; [|split; [done|split; [done|split]]].
  - intros i j f Hi Hj.
    destruct (Hids i f Hi) as (k & Hk & ->).
    destruct (Hids j f Hj) as (k' & Hk' & ->).
    by rewrite (NoDup_lookup _ _ _ _ Hnd Hk Hk').
  - intros k f Hk. apply Hlk. eauto.
  - apply getFilenameId_idempotent.
Qed.

Lemma C9_ids_witness :
  let fs := ["a"; "b"; "a"; "c"; "b"] in
  let ids := (lookups circularImportCtx fs).2 in
  let final := (lookups circularImportCtx fs).1 in
  length ids = length fs ∧
  (∀ i j f, fs !! i = Some f → fs !! j = Some f → ids !! i = ids !! j) ∧
  NoDup (first_seen fs) ∧
  (∀ i f, fs !! i = Some f →
     ∃ k, first_seen fs !! k = Some f ∧ ids !! i = Some (Z.of_nat k + 1)%Z) ∧
  (∀ k f, first_seen fs !! k = Some f →
     filenameToId final !! f = Some (Z.of_nat k + 1)%Z) ∧
  (∀ c f, getFilenameId (getFilenameId c f).1 f
          = ((getFilenameId c f).1, (getFilenameId c f).2)).
Proof. apply (C9_ids_stable_and_sequential ["a"; "b"; "a"; "c"; "b"]). by vm_compute. Defined.

Example ids_example :
  (lookups circularImportCtx ["a"; "b"; "a"; "c"; "b"]).2 = [1; 2; 1; 3; 2]%Z.
Proof. by vm_compute. Qed.


(** ** Edge insertion *)

Section insert_edge.
Implicit Types (cc : C) (a b u v : Z) (i : Include).

Ltac cases_insert_edge cc a b :=
unfold insert_edge, ensure_vertex, old_deg, succs, deg; simpl;
destruct (adjList cc !! a) as [la|] eqn:Ha;
destruct (decide (a = b)) as [->|Hab]; simpl;
repeat (simplify_map_eq; simpl);
try (destruct (adjList cc !! b) as [lb|] eqn:Hb; simpl;
     repeat (simplify_map_eq; simpl));
repeat (case_match; simpl; simplify_map_eq); try done.

Lemma insert_edge_adjList_importer cc a b i :
adjList (insert_edge cc a b i) !! a = Some (succs (adjList cc) a ++ [b]).
Proof. cases_insert_edge cc a b. Qed.

Lemma insert_edge_adjList_other cc a b i u :
u ≠ a →
adjList (insert_edge cc a b i) !! u
= if decide (u = b) then Some (succs (adjList cc) b) else adjList cc !! u.
Proof. intros Hu. cases_insert_edge cc a b. Qed.

Lemma insert_edge_inDegrees_importee cc a b i :
inDegrees (insert_edge cc a b i) !! b = Some (Int.add (old_deg cc b) 1).
Proof. cases_insert_edge cc a b. Qed.

Lemma insert_edge_inDegrees_other cc a b i u :
u ≠ b →
inDegrees (insert_edge cc a b i) !! u
= if decide (u = a)
  then match adjList cc !! a with
       | Some _ => inDegrees cc !! a
       | None => Some 0%Z
       end
  else inDegrees cc !! u.
Proof. intros Hu. cases_insert_edge cc a b. Qed.

Lemma insert_edge_ids cc a b i :
filenameToId (insert_edge cc a b i) = filenameToId cc ∧
idToFilename (insert_edge cc a b i) = idToFilename cc.
Proof. unfold insert_edge, ensure_vertex. simpl. by repeat case_match. Qed.

Lemma insert_edge_edgeMeta cc a b i :
edgeMeta (insert_edge cc a b i)
= match edgeMeta cc !! a with
  | Some _ => edgeMeta cc
  | None => <[a := {[ b := i ]}]> (edgeMeta cc)
  end.
Proof.
unfold insert_edge, ensure_vertex. simpl.
repeat (case_match; simpl in *; simplify_eq); done.
Qed.

Lemma insert_edge_size cc a b i :
size (adjList (insert_edge cc a b i)) ≤ size (adjList cc) + 2.
Proof.
unfold insert_edge, ensure_vertex, succs; simpl.
destruct (adjList cc !! a) as [la|] eqn:Ha;
  destruct (decide (a = b)) as [->|Hab]; simpl;
  repeat (simplify_map_eq; simpl);
  try (destruct (adjList cc !! b) as [lb|] eqn:Hb; simpl;
       repeat (simplify_map_eq; simpl));
  repeat (case_match; simpl; simplify_map_eq);
  repeat (rewrite map_size_insert; simplify_map_eq; simpl); lia.
Qed.

End insert_edge.


(** ** The visit function *)

Lemma visit_normalised E cc f i pa pb :
  getRelPath E f = Some pa →
  getRelPath E (Path i) = Some pb →
  visit E cc f i = add_edge cc pa pb i.
Proof. intros Ha Hb. unfold visit. by rewrite Ha, Hb. Qed.

Lemma add_edge_unfold cc pa pb i :
  add_edge cc pa pb i
  = insert_edge (getFilenameId (getFilenameId cc pa).1 pb).1
      (getFilenameId cc pa).2
      (getFilenameId (getFilenameId cc pa).1 pb).2 i.
Proof.
  unfold add_edge. destruct (getFilenameId cc pa) as [c1 a]. simpl.
  by destruct (getFilenameId c1 pb) as [c2 b].
Qed.

(** Once both paths have their ids, [add_edge] is [insert_edge]. *)
Lemma add_edge_known cc pa pb a b i :
  filenameToId cc !! pa = Some a →
  filenameToId cc !! pb = Some b →
  add_edge cc pa pb i = insert_edge cc a b i.
Proof.
  intros Ha Hb. unfold add_edge.
  by rewrite (getFilenameId_known _ _ _ Ha), (getFilenameId_known _ _ _ Hb).
Qed.

Lemma old_deg_ext cc cc' v :
  adjList cc' = adjList cc → inDegrees cc' = inDegrees cc →
  old_deg cc' v = old_deg cc v.
Proof. unfold old_deg. by intros -> ->. Qed.

(** Claim C8.  When the normalisation of the importer path or of the
    importee path fails, the visit function returns the shared state as it
    received it (no vertex, edge, in-degree, id or include node is added),
    and the include counts for no edge insertion of the run.  The visit
    function has no error result and no panic to report. *)
Theorem C8_unresolvable_path_skipped (E : FS) (cc : C) (filename : string)
    (i : Include) :
  getRelPath E filename = None ∨ getRelPath E (Path i) = None →
  visit E cc filename i = cc ∧
  ∀ visits, run E (visits ++ [(filename, i)]) = run E visits ∧
            insertions E (visits ++ [(filename, i)]) = insertions E visits.
Proof.
  intros Hfail.
  assert (visit E cc filename i = cc) as Hcc.
  { unfold visit. destruct Hfail as [-> | Hb]; [done|].
    destruct (getRelPath E filename); [by rewrite Hb|done]. }
  split; [done|]. intros visits. split.
  - unfold run. rewrite foldl_snoc.
    unfold visit. destruct Hfail as [-> | Hb]; [done|].
    destruct (getRelPath E filename); [by rewrite Hb|done].
  - unfold insertions. rewrite omap_app. simpl.
    destruct Hfail as [-> | Hb]; [by rewrite app_nil_r|].
    destruct (getRelPath E filename); rewrite ?Hb; by rewrite app_nil_r.
Qed.

Lemma C8_unresolvable_path_witness :
  let cc := run Sample.fs Sample.single in
  let i := Sample.inc "/etc/shared.thrift" 3 in
  visit Sample.fs cc "a" i = cc ∧
  ∀ visits, run Sample.fs (visits ++ [("a", i)]) = run Sample.fs visits ∧
            insertions Sample.fs (visits ++ [("a", i)])
            = insertions Sample.fs visits.
Proof.
  apply (C8_unresolvable_path_skipped Sample.fs
           (run Sample.fs Sample.single) "a"
           (Sample.inc "/etc/shared.thrift" 3)).
  right. by vm_compute.
Defined.

(** ** Duplicate includes *)

(** Claim C7 as stated (one edge for the pair) fails: after [a] has
    included [b] under two spellings of the same normalised path, the
    adjacency list of [a] holds [b] twice. *)
Lemma C7_two_edges_counterexample :
  let cc := run Sample.fs Sample.twice in
  getRelPath Sample.fs "b" = getRelPath Sample.fs "./b" ∧
  adjList cc !! 1%Z = Some [2; 2]%Z ∧
  edge_count (adjList cc) 1 2 ≠ 1.
Proof. by vm_compute. Qed.

(** Claim C7, amended.  When one file includes the same normalised file
    twice, each include appends the importee to the importer's adjacency
    list, which so gains two parallel edges, and the importee's in-degree
    is incremented exactly twice: the in-degree counts the edge
    insertions, and so does the adjacency list. *)
Theorem C7_duplicate_include_two_edges (E : FS) (cc : C) (f : string)
    (i1 i2 : Include) (pa pb : string) :
  getRelPath E f = Some pa →
  getRelPath E (Path i1) = Some pb →
  getRelPath E (Path i2) = Some pb →
  let a := (getFilenameId cc pa).2 in
  let b := (getFilenameId (getFilenameId cc pa).1 pb).2 in
  let cc2 := visit E (visit E cc f i1) f i2 in
  adjList cc2 !! a = Some (succs (adjList cc) a ++ [b; b]) ∧
  edge_count (adjList cc2) a b = edge_count (adjList cc) a b + 2 ∧
  inDegrees cc2 !! b = Some (Int.add (Int.add (old_deg cc b) 1) 1).
Proof.
  intros Hf H1 H2 a b cc2.
  set (ca := (getFilenameId cc pa).1).
  set (cb := (getFilenameId ca pb).1).
  assert (adjList cb = adjList cc ∧ inDegrees cb = inDegrees cc) as [Hadj Hdeg].
  { unfold cb. destruct (getFilenameId_graph ca pb) as (-> & -> & _).
    unfold ca. by destruct (getFilenameId_graph cc pa) as (-> & -> & _). }
  set (cc1 := insert_edge cb a b i1).
  assert (visit E cc f i1 = cc1) as Hv1.
  { by rewrite (visit_normalised _ _ _ _ _ _ Hf H1), add_edge_unfold. }
  assert (filenameToId cc1 !! pa = Some a ∧ filenameToId cc1 !! pb = Some b)
    as [Ha Hb].
  { subst cc1. destruct (insert_edge_ids cb a b i1) as [-> _]. split.
    - apply getFilenameId_preserved, getFilenameId_lookup.
    - apply getFilenameId_lookup. }
  assert (cc2 = insert_edge cc1 a b i2) as ->.
  { subst cc2. rewrite Hv1, (visit_normalised _ _ _ _ _ _ Hf H2).
    by apply add_edge_known. }
  assert (adjList cc1 !! a = Some (succs (adjList cc) a ++ [b])) as Ha1.
  { subst cc1. by rewrite insert_edge_adjList_importer, Hadj. }
  assert (adjList (insert_edge cc1 a b i2) !! a
          = Some (succs (adjList cc) a ++ [b; b])) as Ha2.
  { rewrite insert_edge_adjList_importer. unfold succs at 1.
    rewrite Ha1. simpl. by rewrite <-app_assoc. }
  split; [done|]. split.
  - unfold edge_count, succs at 1. rewrite Ha2. simpl.
    rewrite filter_app, length_app. f_equal.
    rewrite !filter_cons. rewrite !decide_True by done. done.
  - rewrite insert_edge_inDegrees_importee. do 2 f_equal.
    assert (is_Some (adjList cc1 !! b)) as [lb Hlb].
    { destruct (decide (b = a)) as [->|Hne]; [by eexists|].
      subst cc1. rewrite insert_edge_adjList_other by done.
      rewrite decide_True by done. by eexists. }
    unfold old_deg at 1. rewrite Hlb. unfold deg. subst cc1.
    rewrite insert_edge_inDegrees_importee. simpl.
    f_equal. by apply old_deg_ext.
Qed.

Lemma C7_duplicate_include_witness :
  let cc := circularImportCtx in
  let cc2 := visit Sample.fs (visit Sample.fs cc "a" (Sample.inc "b" 1))
               "a" (Sample.inc "./b" 2) in
  let a := (getFilenameId cc "a").2 in
  let b := (getFilenameId (getFilenameId cc "a").1 "b").2 in
  adjList cc2 !! a = Some (succs (adjList cc) a ++ [b; b]) ∧
  edge_count (adjList cc2) a b = edge_count (adjList cc) a b + 2 ∧
  inDegrees cc2 !! b = Some (Int.add (Int.add (old_deg cc b) 1) 1).
Proof.
  apply (C7_duplicate_include_two_edges Sample.fs circularImportCtx "a"
           (Sample.inc "b" 1) (Sample.inc "./b" 2) "a" "b");
    by vm_compute.
Defined.

(** ** Finalize and the accumulated state *)

(** Claim C5 as stated (finalize does not mutate the in-degree map) fails:
    after the single include [a -> b], the in-degree of [b] is 1 before
    finalize and -1 after it. *)
Lemma C5_finalize_mutates_inDegrees :
  let cc := run Sample.fs Sample.single in
  ∃ r cc', finalize 8 [1; 2]%Z [1; 2]%Z cc = Some (r, cc') ∧
           inDegrees cc !! 2%Z = Some 1%Z ∧
           inDegrees cc' !! 2%Z = Some (-1)%Z ∧
           inDegrees cc' ≠ inDegrees cc.
Proof.
  eexists _, _. split; [vm_compute; reflexivity|].
  split; [by vm_compute|]. split; [by vm_compute|].
  intros Heq. apply (f_equal (λ m : gmap Z Z, m !! 2%Z)) in Heq.
  by vm_compute in Heq.
Qed.


(** ** The invariant of the accumulated state *)

Section ids_facts.
Implicit Types (c : C) (f g p q : string) (seen : list string).

Lemma ids_inv_ext seen c c' :
filenameToId c' = filenameToId c → ids_inv seen c → ids_inv seen c'.
Proof. intros Heq [? ? ?]. split; by rewrite ?Heq. Qed.

Lemma ids_inv_inj seen c p q v :
ids_inv seen c →
filenameToId c !! p = Some v → filenameToId c !! q = Some v → p = q.
Proof.
intros [_ _ Hlk] (k & Hk & ->)%Hlk (k' & Hk' & Heq)%Hlk.
assert (k = k') as -> by lia. congruence.
Qed.

Lemma getFilenameId_inv c f g v :
filenameToId (getFilenameId c f).1 !! g = Some v →
g = f ∨ filenameToId c !! g = Some v.
Proof.
unfold getFilenameId.
destruct (filenameToId c !! f) as [w|] eqn:Hf; simpl; [by right|].
destruct (decide (g = f)) as [->|Hne]; [by left|].
rewrite lookup_insert_ne by done. by right.
Qed.

Lemma getFilenameId_seen_length seen f :
length (if decide (f ∈ seen) then seen else seen ++ [f]) ≤ S (length seen).
Proof. case_decide; rewrite ?length_app; simpl; lia. Qed.

End ids_facts.

Section hits.
Implicit Types (p : string) (ins : list (string * string * Include)).

Lemma hits_of_snoc p ins pa pb i :
hits_of p (ins ++ [(pa, pb, i)])
= hits_of p ins + (if decide (pb = p) then 1 else 0).
Proof.
unfold hits_of. rewrite filter_app, length_app. f_equal.
rewrite filter_cons. simpl. by case_decide.
Qed.

Lemma hits_of_le p ins : hits_of p ins ≤ length ins.
Proof. apply length_filter. Qed.

Lemma hits_of_unseen p ins :
(∀ e, e ∈ ins → e.1.2 ≠ p) → hits_of p ins = 0.
Proof.
intros Hne. unfold hits_of.
induction ins as [|e ins IH]; [done|].
rewrite filter_cons. rewrite decide_False by (apply Hne; left).
apply IH. intros e' He'. apply Hne. by right.
Qed.

End hits.

Lemma graph_inv_empty : graph_inv [] circularImportCtx.
Proof.
  split; simpl.
  - exists []. split; [apply ids_inv_empty|done].
  - by intros e ?%elem_of_nil.
  - intros v. rewrite lookup_empty. split; [by intros [? ?]|].
    intros [p Hp]. by rewrite lookup_empty in Hp.
  - intros v. by rewrite !lookup_empty.
  - by rewrite map_size_empty.
  - intros p v. by rewrite lookup_empty.
  - intros u l v. by rewrite lookup_empty.
  - intros u l. by rewrite lookup_empty.
Qed.

(** The successors of a vertex of a state that satisfies the invariant. *)
Lemma graph_inv_succs ins cc u :
  graph_inv ins cc →
  (∀ v, v ∈ succs (adjList cc) u → is_Some (adjList cc !! v)) ∧
  length (succs (adjList cc) u) ≤ length ins.
Proof.
  intros Hinv. unfold succs.
  destruct (adjList cc !! u) as [l|] eqn:Hu; simpl.
  - split; [|by eapply inv_length]. intros v Hv. by eapply inv_targets.
  - split; [by intros v ?%elem_of_nil|lia].
Qed.

(** One edge insertion preserves the invariant, as long as the ids and the
    in-degrees stay below the largest [int]. *)
Lemma graph_inv_add_edge ins cc pa pb i :
  graph_inv ins cc →
  (2 * Z.of_nat (length ins) + 2 < Int.max_int)%Z →
  graph_inv (ins ++ [(pa, pb, i)]) (add_edge cc pa pb i).
Proof.
  intros Hinv Hbound.
  destruct (inv_ids _ _ Hinv) as (seen & Hids & Hseen).
  (* the two id lookups *)
  destruct (getFilenameId_ids_inv seen cc pa Hids) as [Hids1 _]; [lia|].
  pose proof (getFilenameId_seen_length seen pa) as Hlen1.
  set (seen1 := if decide (pa ∈ seen) then seen else seen ++ [pa]) in *.
  set (ca := (getFilenameId cc pa).1) in *.
  destruct (getFilenameId_ids_inv seen1 ca pb Hids1) as [Hids2 _]; [lia|].
  pose proof (getFilenameId_seen_length seen1 pb) as Hlen2.
  set (seen2 := if decide (pb ∈ seen1) then seen1 else seen1 ++ [pb]) in *.
  set (cb := (getFilenameId ca pb).1) in *.
  set (a := (getFilenameId cc pa).2).
  set (b := (getFilenameId ca pb).2).
  rewrite add_edge_unfold. fold ca cb a b.
  assert (adjList cb = adjList cc ∧ inDegrees cb = inDegrees cc) as [Hadj Hdeg].
  { unfold cb. destruct (getFilenameId_graph ca pb) as (-> & -> & _).
    unfold ca. by destruct (getFilenameId_graph cc pa) as (-> & -> & _). }
  assert (filenameToId cb !! pa = Some a) as Hpa.
  { apply getFilenameId_preserved, getFilenameId_lookup. }
  assert (filenameToId cb !! pb = Some b) as Hpb.
  { apply getFilenameId_lookup. }
  assert (∀ p v, filenameToId cc !! p = Some v → filenameToId cb !! p = Some v)
    as Hmono.
  { intros p v Hp. by do 2 apply getFilenameId_preserved. }
  assert (∀ p v, filenameToId cb !! p = Some v →
                 (p = pa ∧ v = a) ∨ (p = pb ∧ v = b) ∨
                 filenameToId cc !! p = Some v) as Hcases.
  { intros p v Hp. destruct (getFilenameId_inv _ _ _ _ Hp) as [->|Hp1].
    { right; left. split; [done|congruence]. }
    destruct (getFilenameId_inv _ _ _ _ Hp1) as [->|Hp0]; [|by auto].
    left. split; [done|]. fold ca cb in Hp. congruence. }
  assert (∀ p q v, filenameToId cb !! p = Some v →
                   filenameToId cb !! q = Some v → p = q) as Hinj
    by (intros p q v; apply (ids_inv_inj seen2 cb p q v Hids2)).
  (* the vertices of the old graph are the old ids *)
  assert (∀ v, is_Some (adjList cc !! v) ↔ ∃ p, filenameToId cc !! p = Some v)
    as Hvert by apply Hinv.
  destruct (insert_edge_ids cb a b i) as [Hf2i _].
  set (cc' := insert_edge cb a b i) in *.
  assert (adjList cc' !! a = Some (succs (adjList cc) a ++ [b])) as HLa.
  { unfold cc'. by rewrite insert_edge_adjList_importer, Hadj. }
  assert (∀ u, u ≠ a → adjList cc' !! u
            = if decide (u = b) then Some (succs (adjList cc) b)
              else adjList cc !! u) as HLo.
  { intros u Hu. unfold cc'. by rewrite insert_edge_adjList_other, Hadj. }
  assert (∀ v, is_Some (adjList cc !! v) → is_Some (adjList cc' !! v)) as Hkeys.
  { intros v Hv. destruct (decide (v = a)) as [->|Hva]; [by eexists|].
    rewrite HLo by done. by case_decide. }
  assert (is_Some (adjList cc' !! b)) as Hb'.
  { destruct (decide (b = a)) as [->|Hba]; [by eexists|].
    rewrite HLo, decide_True by done. by eexists. }
  split.
  - (* ids *)
    exists seen2. split; [by apply (ids_inv_ext _ cb)|].
    rewrite length_app. simpl. lia.
  - (* every importee has an id *)
    intros e [He| ->%list_elem_of_singleton]%elem_of_app; rewrite Hf2i.
    + destruct (inv_seen _ _ Hinv e He) as [v Hv]. exists v. by apply Hmono.
    + by eexists.
  - (* vertices are the ids *)
    intros v. rewrite Hf2i. split.
    + intros Hv. destruct (decide (v = a)) as [->|Hva]; [by eauto|].
      rewrite HLo in Hv by done. case_decide as Hvb; [subst; by eauto|].
      apply Hvert in Hv as [p Hp]. exists p. by apply Hmono.
    + intros [p Hp]. destruct (Hcases p v Hp) as [[-> ->]|[[-> ->]|Hold]].
      * by eexists.
      * done.
      * apply Hkeys, Hvert. by eauto.
  - (* the two maps have the same keys *)
    intros v. destruct (decide (v = b)) as [->|Hvb].
    { unfold cc' at 1. rewrite insert_edge_inDegrees_importee.
      split; [done|by eexists]. }
    unfold cc' at 1. rewrite insert_edge_inDegrees_other by done.
    rewrite Hadj, Hdeg. destruct (decide (v = a)) as [->|Hva].
    + rewrite HLa. destruct (adjList cc !! a) eqn:Haa.
      * split; [by eexists|]. intros _. apply (inv_keys _ _ Hinv). by eexists.
      * split; by eexists.
    + rewrite HLo, decide_False by done. apply Hinv.
  - (* number of vertices *)
    etrans; [apply insert_edge_size|]. rewrite Hadj, length_app. simpl.
    pose proof (inv_vsize _ _ Hinv). lia.
  - (* in-degrees count the insertions *)
    intros p v. rewrite Hf2i. intros Hp. rewrite hits_of_snoc.
    assert (∀ q, filenameToId cc !! q = None → hits_of q ins = 0) as Hfresh.
    { intros q Hq. apply hits_of_unseen. intros e He <-.
      destruct (inv_seen _ _ Hinv e He) as [w Hw]. congruence. }
    assert (∀ q w, filenameToId cb !! q = Some w →
                   filenameToId cc !! q = None → adjList cc !! w = None)
      as Hnew.
    { intros q w Hq Hnone. destruct (adjList cc !! w) as [l|] eqn:Hw; [|done].
      destruct (proj1 (Hvert w)) as [q' Hq']; [by eexists|].
      assert (q' = q) as -> by (eapply Hinj; [by apply Hmono|done]).
      congruence. }
    destruct (decide (v = b)) as [->|Hvb].
    + assert (p = pb) as -> by (by eapply Hinj).
      rewrite decide_True by done.
      unfold cc'. rewrite insert_edge_inDegrees_importee. f_equal.
      unfold old_deg. rewrite Hadj, Hdeg.
      pose proof (hits_of_le pb ins) as Hle.
      destruct (filenameToId cc !! pb) as [w|] eqn:Hold.
      * assert (w = b) as -> by (apply Hmono in Hold; congruence).
        destruct (proj2 (Hvert b)) as [l Hl]; [by eauto|]. rewrite Hl.
        unfold deg. rewrite (inv_deg _ _ Hinv _ _ Hold). simpl.
        rewrite int_add_small; unfold Int.in_range, Int.min_int, Int.max_int in *;
          lia.
      * rewrite (Hnew _ _ Hpb Hold), (Hfresh _ Hold).
        rewrite int_add_small; unfold Int.in_range, Int.min_int, Int.max_int in *;
          lia.
    + assert (pb ≠ p) as Hne by (intros ->; congruence).
      rewrite decide_False, Nat.add_0_r by done.
      unfold cc'. rewrite insert_edge_inDegrees_other by done.
      rewrite Hadj, Hdeg.
      destruct (filenameToId cc !! p) as [w|] eqn:Hold.
      * assert (w = v) as -> by (apply Hmono in Hold; congruence).
        pose proof (inv_deg _ _ Hinv _ _ Hold) as Hd.
        case_decide as Hva; [subst v|done].
        destruct (proj2 (Hvert a)) as [l Hl]; [by eauto|]. by rewrite Hl.
      * destruct (Hcases p v Hp) as [[-> ->]|[[-> ->]|Hp']]; [|done|congruence].
        rewrite decide_True by done.
        by rewrite (Hnew _ _ Hpa Hold), (Hfresh _ Hold).
  - (* the targets of the edges are vertices *)
    intros u l v Hu Hv.
    assert (∀ w, v ∈ succs (adjList cc) w → is_Some (adjList cc' !! v)) as Hold.
    { intros w Hw. apply Hkeys. by apply (graph_inv_succs ins cc w Hinv). }
    destruct (decide (u = a)) as [->|Hua].
    + rewrite HLa in Hu. simplify_eq.
      apply elem_of_app in Hv as [Hv| ->%list_elem_of_singleton]; [|done].
      by eapply Hold.
    + rewrite HLo in Hu by done. case_decide; simplify_eq; [by eapply Hold|].
      apply Hkeys. by eapply inv_targets.
  - (* the adjacency lists are no longer than the run *)
    intros u l Hu. rewrite length_app. simpl.
    destruct (decide (u = a)) as [->|Hua].
    + rewrite HLa in Hu. simplify_eq. rewrite length_app. simpl.
      pose proof (proj2 (graph_inv_succs ins cc a Hinv)). lia.
    + rewrite HLo in Hu by done. case_decide; simplify_eq.
      * pose proof (proj2 (graph_inv_succs ins cc b Hinv)). lia.
      * pose proof (inv_length _ _ Hinv _ _ Hu). lia.
Qed.


Lemma build_snoc ins pa pb i :
  build (ins ++ [(pa, pb, i)]) = add_edge (build ins) pa pb i.
Proof. unfold build. by rewrite foldl_snoc. Qed.

Lemma graph_inv_build ins :
  (2 * Z.of_nat (length ins) < Int.max_int)%Z → graph_inv ins (build ins).
Proof.
  induction ins as [|[[pa pb] i] ins IH] using rev_ind; intros Hbound.
  { apply graph_inv_empty. }
  rewrite length_app in Hbound. simpl in Hbound.
  rewrite build_snoc. apply graph_inv_add_edge; [apply IH|]; lia.
Qed.

Lemma insertions_snoc E visits f i :
  insertions E (visits ++ [(f, i)])
  = insertions E visits ++
    match getRelPath E f, getRelPath E (Path i) with
    | Some pa, Some pb => [(pa, pb, i)]
    | _, _ => []
    end.
Proof.
  unfold insertions. rewrite omap_app. f_equal. simpl.
  by destruct (getRelPath E f), (getRelPath E (Path i)).
Qed.

Lemma insertions_length E visits :
  length (insertions E visits) ≤ length visits.
Proof.
  induction visits as [|[f i] visits IH] using rev_ind; [done|].
  rewrite insertions_snoc, !length_app.
  destruct (getRelPath E f), (getRelPath E (Path i)); simpl; lia.
Qed.

(** A run is the sequence of its edge insertions. *)
Lemma run_build E visits : run E visits = build (insertions E visits).
Proof.
  induction visits as [|[f i] visits IH] using rev_ind; [done|].
  rewrite insertions_snoc. unfold run in *. rewrite foldl_snoc, IH.
  unfold visit.
  destruct (getRelPath E f) as [pa|]; [|by rewrite app_nil_r].
  destruct (getRelPath E (Path i)) as [pb|]; [|by rewrite app_nil_r].
  by rewrite build_snoc.
Qed.

Lemma graph_inv_run E visits :
  (2 * Z.of_nat (length visits) < Int.max_int)%Z →
  graph_inv (insertions E visits) (run E visits).
Proof.
  intros Hbound. rewrite run_build. apply graph_inv_build.
  pose proof (insertions_length E visits). lia.
Qed.

(** Finalize writes the in-degree map and nothing else. *)
Lemma finalize_frame fuel ks1 ks2 cc r cc' :
  finalize fuel ks1 ks2 cc = Some (r, cc') →
  ∃ inDeg', cc' = set_inDegrees inDeg' cc.
Proof.
  unfold finalize.
  destruct (lookForCycle fuel ks1 ks2 (adjList cc) (inDegrees cc))
    as [[inDeg' [[imports cycle]|msg]]|]; [| |done].
  - destruct cycle; intros [= _ <-]; by eexists.
  - intros [= _ <-]. by eexists.
Qed.

(** Claim C5, amended.  After every visit call of a run (of fewer than
    2^62 include nodes, so that no [int] overflows): every vertex that is
    a key of [adjList] or of [inDegrees], and every vertex listed in an
    adjacency list, has an id in [filenameToId]; and [inDegrees[v]] is the
    number of edge insertions of the run that targeted the file of [v].
    Finalize leaves the adjacency lists, the edge metadata and the two id
    tables as they are; the in-degree map is the one part of the state it
    writes ([lookForCycle] decrements it in place). *)
Theorem C5_graph_invariants (E : FS) (visits : list (string * Include)) :
  (2 * Z.of_nat (length visits) < Int.max_int)%Z →
  let cc := run E visits in
  (∀ v, is_Some (adjList cc !! v) ∨ is_Some (inDegrees cc !! v) →
        ∃ p, filenameToId cc !! p = Some v) ∧
  (∀ u l v, adjList cc !! u = Some l → v ∈ l →
            ∃ p, filenameToId cc !! p = Some v) ∧
  (∀ p v, filenameToId cc !! p = Some v →
          inDegrees cc !! v = Some (Z.of_nat (hits E p visits))) ∧
  (∀ fuel ks1 ks2 r cc',
      finalize fuel ks1 ks2 cc = Some (r, cc') →
      adjList cc' = adjList cc ∧ edgeMeta cc' = edgeMeta cc ∧
      filenameToId cc' = filenameToId cc ∧ idToFilename cc' = idToFilename cc).
Proof.
  intros Hbound cc. pose proof (graph_inv_run E visits Hbound) as Hinv.
  fold cc in Hinv. split; [|split; [|split]].
  - intros v [Hv|Hv]; [|apply (inv_keys _ _ Hinv) in Hv];
      by apply (inv_vertex _ _ Hinv).
  - intros u l v Hu Hv. apply (inv_vertex _ _ Hinv).
    by eapply inv_targets.
  - intros p v Hp. by apply (inv_deg _ _ Hinv).
  - intros fuel ks1 ks2 r cc' Hfin.
    by destruct (finalize_frame _ _ _ _ _ _ Hfin) as [inDeg' ->].
Qed.

Lemma C5_graph_invariants_witness :
  let cc := run Sample.fs Sample.tree in
  (∀ v, is_Some (adjList cc !! v) ∨ is_Some (inDegrees cc !! v) →
        ∃ p, filenameToId cc !! p = Some v) ∧
  (∀ u l v, adjList cc !! u = Some l → v ∈ l →
            ∃ p, filenameToId cc !! p = Some v) ∧
  (∀ p v, filenameToId cc !! p = Some v →
          inDegrees cc !! v = Some (Z.of_nat (hits Sample.fs p Sample.tree))) ∧
  (∀ fuel ks1 ks2 r cc',
      finalize fuel ks1 ks2 cc = Some (r, cc') →
      adjList cc' = adjList cc ∧ edgeMeta cc' = edgeMeta cc ∧
      filenameToId cc' = filenameToId cc ∧ idToFilename cc' = idToFilename cc).
Proof. apply (C5_graph_invariants Sample.fs Sample.tree). by vm_compute. Defined.


(** ** Termination of the depth-first search *)

Section dfs_terminates.
Variable adj : gmap Z (list Z).
(** A finite set that holds every vertex the search can reach. *)
Variable U : gset Z.
Hypothesis U_closed : ∀ u v, v ∈ succs adj u → v ∈ U.

Lemma unvisited_shrinks (cur : Z) (gvis : gset Z) :
  cur ∈ U → cur ∉ gvis → size (U ∖ ({[cur]} ∪ gvis)) < size (U ∖ gvis).
Proof. intros HU Hg. apply subset_size. set_solver. Qed.

Lemma unvisited_mono (gvis gvis' : gset Z) :
  gvis ⊆ gvis' → size (U ∖ gvis') ≤ size (U ∖ gvis).
Proof. intros Hsub. apply subseteq_size. set_solver. Qed.

(** The loop over the successors, given that the recursive calls return. *)
Lemma dfs_children_returns
    (rec : Z → list Z → gset Z → gset Z → option dfs_result) (bound : nat)
    (path : list Z) :
  (∀ cur vertices vis gvis,
      cur ∈ U → size (U ∖ gvis) < bound →
      ∃ r vis' gvis', rec cur vertices vis gvis = Some (r, vis', gvis') ∧
                      gvis ⊆ gvis') →
  ∀ vs vis gvis,
    (∀ v, v ∈ vs → v ∈ U) → size (U ∖ gvis) < bound →
    ∃ r vis' gvis', dfs_children rec path vs vis gvis = Some (r, vis', gvis') ∧
                    gvis ⊆ gvis'.
Proof.
  intros Hrec vs. induction vs as [|v vs IH]; intros vis gvis HU Hsize; simpl.
  { by exists None, vis, gvis. }
  destruct (Hrec v path vis gvis) as (r & vis' & gvis' & -> & Hsub);
    [apply HU; by left|done|].
  destruct r as [r|].
  { by exists (Some r), vis', gvis'. }
  destruct (IH vis' gvis') as (r' & vis'' & gvis'' & -> & Hsub').
  - intros w Hw. apply HU. by right.
  - pose proof (unvisited_mono gvis gvis' Hsub). lia.
  - exists r', vis'', gvis''. split; [done|]. set_solver.
Qed.

(** [dfs] returns as soon as the fuel exceeds the number of vertices not
    yet visited: every descent adds [cur] to the global visited set. *)
Lemma dfs_returns fuel cur vertices vis gvis :
  cur ∈ U → size (U ∖ gvis) < fuel →
  ∃ r vis' gvis', dfs fuel adj cur vertices vis gvis = Some (r, vis', gvis') ∧
                  gvis ⊆ gvis'.
Proof.
  revert cur vertices vis gvis.
  induction fuel as [|fuel IH]; intros cur vertices vis gvis HU Hsize; [lia|].
  simpl.
  destruct (if decide (cur ∈ vis) then suffix_from cur vertices else None)
    as [vs|].
  { by exists (Some vs), vis, gvis. }
  destruct (decide (cur ∈ gvis)) as [Hin|Hnin].
  { by exists None, vis, gvis. }
  destruct (dfs_children_returns (dfs fuel adj) fuel (vertices ++ [cur]) IH
              (succs adj cur) ({[cur]} ∪ vis) ({[cur]} ∪ gvis))
    as (r & vis' & gvis' & -> & Hsub).
  - intros v Hv. by eapply U_closed.
  - pose proof (unvisited_shrinks cur gvis HU Hnin). lia.
  - exists r, vis', gvis'. split; [done|]. set_solver.
Qed.

Lemma find_from_returns fuel ks gvis :
  (∀ v, v ∈ ks → v ∈ U) → size U < fuel →
  ∃ out, find_from fuel adj ks gvis = Some out.
Proof.
  intros HU Hsize. revert gvis.
  induction ks as [|v ks IH]; intros gvis; simpl; [by eexists|].
  destruct (dfs_returns fuel v [] ∅ gvis) as (r & vis' & gvis' & -> & _).
  - apply HU. by left.
  - assert (size (U ∖ gvis) ≤ size U) by (apply subseteq_size; set_solver).
    lia.
  - destruct r as [vs|]; [by eexists|]. apply IH.
    intros w Hw. apply HU. by right.
Qed.

End dfs_terminates.

(** [findCycleVertices] returns (a cycle, or its panic) on every graph whose
    edges lead to keys of the map, whatever the order of the keys. *)
Lemma findCycleVertices_returns fuel ks adj :
  range_order adj ks →
  (∀ u l v, adj !! u = Some l → v ∈ l → is_Some (adj !! v)) →
  size adj < fuel →
  ∃ out, findCycleVertices fuel ks adj = Some out.
Proof.
  intros Hks Hclosed Hfuel. unfold findCycleVertices.
  apply (find_from_returns adj (dom adj)).
  - intros u v. unfold succs. destruct (adj !! u) as [l|] eqn:Hu; simpl.
    + intros Hv. apply elem_of_dom. by eapply Hclosed.
    + by intros ?%elem_of_nil.
  - intros v Hv. apply elem_of_dom. by apply (range_order_elem_of adj ks).
  - by rewrite size_dom.
Qed.


(** ** Termination of the worklist loop *)

Lemma positive_elem_of (inDeg : gmap Z Z) (v : Z) :
  v ∈ positive inDeg ↔ (0 < deg inDeg v)%Z.
Proof.
  unfold positive, deg. rewrite elem_of_dom. split.
  - intros [x [Hx Hpos]%map_lookup_filter_Some]. by rewrite Hx.
  - intros Hpos. destruct (inDeg !! v) as [x|] eqn:Hx; simpl in Hpos; [|lia].
    exists x. by apply map_lookup_filter_Some.
Qed.

Lemma deg_insert (inDeg : gmap Z Z) (v u d : Z) :
  deg (<[v := d]> inDeg) u = if decide (u = v) then d else deg inDeg u.
Proof.
  unfold deg. case_decide as Huv; [subst; by rewrite lookup_insert_eq|].
  by rewrite lookup_insert_ne.
Qed.

Section generation.
Variables (adj : gmap Z (list Z)) (sources : list Z).
(** A bound on the length of the adjacency lists, a lower bound on the
    in-degrees at the start of the generation, and the vertices of
    positive in-degree at that time. *)
Variables (L : nat) (lo : Z) (P0 : gset Z).
Hypothesis adj_short : ∀ u, length (succs adj u) ≤ L.

Lemma gen_inv_weaken n m st : n ≤ m → gen_inv sources lo P0 n st → gen_inv sources lo P0 m st.
Proof.
  intros Hnm [Hr Hp Hn]. split; [|done..].
  intros u. specialize (Hr u). lia.
Qed.

Lemma relax_gen_inv n st v :
  gen_inv sources lo P0 n st → (Int.min_int < lo - Z.of_nat n)%Z →
  gen_inv sources lo P0 (S n) (relax sources st v).
Proof.
  intros [Hr Hp Hn] Hlo. unfold relax.
  pose proof (Hr v) as Hv.
  rewrite int_sub_small
    by (unfold Int.in_range, Int.min_int, Int.max_int in *; lia).
  set (d := (deg (k_inDeg st) v - 1)%Z).
  assert (positive (<[v := d]> (k_inDeg st)) ⊆ positive (k_inDeg st)) as Hsub.
  { intros u. rewrite !positive_elem_of, deg_insert.
    case_decide; [subst u d|done]. lia. }
  destruct (decide (d = 0%Z)) as [Hd|Hd]; split; simpl.
  - intros u. rewrite deg_insert. specialize (Hr u). case_decide; lia.
  - set_solver.
  - right. split; [|by rewrite length_app; simpl; lia].
    exists v. split.
    + apply Hp, positive_elem_of. lia.
    + rewrite positive_elem_of, deg_insert, decide_True by done. lia.
  - intros u. rewrite deg_insert. specialize (Hr u). case_decide; lia.
  - set_solver.
  - destruct Hn as [Hn|[(w & Hw & Hw') Hlen]]; [by left|right].
    split; [|done]. exists w. set_solver.
Qed.

Lemma relax_all_gen_inv vs n st :
  gen_inv sources lo P0 n st →
  (Int.min_int ≤ lo - Z.of_nat (n + length vs))%Z →
  gen_inv sources lo P0 (n + length vs) (foldl (relax sources) st vs).
Proof.
  revert n st. induction vs as [|v vs IH]; intros n st Hinv Hlo; simpl in *.
  { by rewrite Nat.add_0_r. }
  replace (n + S (length vs)) with (S n + length vs) by lia.
  apply IH; [|lia]. apply relax_gen_inv; [done|lia].
Qed.

Lemma process_source_gen_inv n st source :
  gen_inv sources lo P0 n st → (Int.min_int ≤ lo - Z.of_nat (n + L))%Z →
  gen_inv sources lo P0 (n + L) (process_source adj sources st source).
Proof.
  intros Hinv Hlo. unfold process_source.
  pose proof (adj_short source) as Hlen.
  apply (gen_inv_weaken (n + length (succs adj source))); [lia|].
  apply relax_all_gen_inv; [done|lia].
Qed.

Lemma sources_gen_inv ss n st :
  gen_inv sources lo P0 n st → (Int.min_int ≤ lo - Z.of_nat (n + length ss * L))%Z →
  gen_inv sources lo P0 (n + length ss * L) (foldl (process_source adj sources) st ss).
Proof.
  revert n st. induction ss as [|s ss IH]; intros n st Hinv Hlo; simpl in *.
  { by rewrite Nat.add_0_r. }
  replace (n + (L + length ss * L)) with ((n + L) + length ss * L) by lia.
  apply IH; [|lia]. apply process_source_gen_inv; [done|lia].
Qed.

End generation.

(** One generation: no in-degree wraps, no in-degree becomes positive, and
    a non-empty next worklist is one longer than the current one and comes
    with a vertex whose in-degree has ceased to be positive. *)
Lemma generation_spec adj sources inDeg count L lo :
  (∀ u, length (succs adj u) ≤ L) →
  (∀ u, (lo ≤ deg inDeg u ≤ Int.max_int)%Z) →
  (Int.min_int ≤ lo - Z.of_nat (length sources * L))%Z →
  let st := generation adj sources inDeg count in
  (∀ u, (lo - Z.of_nat (length sources * L) ≤ deg (k_inDeg st) u
         ≤ Int.max_int)%Z) ∧
  (k_new st = [] ∨
   (size (positive (k_inDeg st)) < size (positive inDeg) ∧
    length (k_new st) = S (length sources))).
Proof.
  intros HL Hlo Hmin st.
  assert (gen_inv sources lo (positive inDeg) 0 (mkKahn inDeg count [])) as H0.
  { split; simpl; [|done|by left]. intros u. specialize (Hlo u). lia. }
  apply (sources_gen_inv adj sources L lo (positive inDeg) HL sources) in H0;
    [|simpl; lia].
  fold (generation adj sources inDeg count) in H0. fold st in H0.
  destruct H0 as [Hr Hp Hn]. split; [done|].
  destruct Hn as [Hn|[(w & Hw & Hw') Hlen]]; [by left|right].
  split; [|done]. apply subset_size. set_solver.
Qed.

Lemma kahn_loop_nil fuel adj inDeg count :
  kahn_loop fuel adj inDeg count [] = Some (inDeg, count).
Proof. by destruct fuel. Qed.

Lemma kahn_loop_step fuel adj inDeg count sources :
  sources ≠ [] →
  kahn_loop (S fuel) adj inDeg count sources
  = let st := generation adj sources inDeg count in
    kahn_loop fuel adj (k_inDeg st) (k_count st) (k_new st).
Proof. by destruct sources. Qed.

Lemma initial_sources_length ks inDeg :
  length (initial_sources ks inDeg).2 ≤ length ks.
Proof.
  unfold initial_sources.
  assert (∀ acc : Z * list Z,
            length (foldl (λ '(count, sources) v,
                      if decide (deg inDeg v = 0%Z)
                      then (Int.add count 1, sources ++ [v])
                      else (count, sources)) acc ks).2
            ≤ length acc.2 + length ks) as Hgen.
  { induction ks as [|v ks IH]; intros [count sources]; simpl; [lia|].
    etrans; [apply IH|]. case_decide; simpl; rewrite ?length_app; simpl; lia. }
  apply (Hgen (0%Z, [])).
Qed.


(** ** Termination of finalize *)

Lemma positive_size (inDeg : gmap Z Z) : size (positive inDeg) ≤ size inDeg.
Proof.
  rewrite <-(size_dom (D := gset Z) inDeg). apply subseteq_size.
  unfold positive. apply subseteq_dom, map_filter_subseteq.
Qed.

(** In an accumulated state every in-degree lies between zero and the
    number of insertions, and the two maps have as many keys. *)
Lemma graph_inv_deg_range ins cc u :
  graph_inv ins cc →
  (0 ≤ deg (inDegrees cc) u ≤ Z.of_nat (length ins))%Z.
Proof.
  intros Hinv. unfold deg.
  destruct (inDegrees cc !! u) as [d|] eqn:Hd; simpl; [|lia].
  assert (is_Some (adjList cc !! u)) as Hu
    by (apply (inv_keys _ _ Hinv); by eexists).
  apply (inv_vertex _ _ Hinv) in Hu as [p Hp].
  rewrite (inv_deg _ _ Hinv _ _ Hp) in Hd. simplify_eq.
  pose proof (hits_of_le p ins). lia.
Qed.

Lemma graph_inv_size ins cc :
  graph_inv ins cc → size (inDegrees cc) = size (adjList cc).
Proof.
  intros Hinv.
  rewrite <-(size_dom (D := gset Z) (inDegrees cc)).
  rewrite <-(size_dom (D := gset Z) (adjList cc)). f_equal.
  apply set_eq. intros v. rewrite !elem_of_dom. apply Hinv.
Qed.

(** ** The cycle returned by the depth-first search *)

Lemma chain_singleton adj v : chain adj [v].
Proof. intros i u w Hi Hs. destruct i; simplify_eq. Qed.

Lemma chain_snoc adj l u v :
  chain adj (l ++ [u]) → edge adj u v → chain adj ((l ++ [u]) ++ [v]).
Proof.
  intros Hl Huv i x y Hi Hs.
  destruct (decide (S i < length (l ++ [u]))) as [Hlt|Hge].
  - rewrite lookup_app_l in Hi by lia. rewrite lookup_app_l in Hs by done.
    by eapply Hl.
  - assert (S i = length (l ++ [u])) as Hlen.
    { apply lookup_lt_Some in Hs. rewrite length_app in Hs. simpl in Hs. lia. }
    rewrite lookup_app_r in Hs by lia. rewrite Hlen, Nat.sub_diag in Hs.
    simplify_eq/=.
    rewrite lookup_app_l in Hi by lia.
    rewrite length_app in Hlen. simpl in Hlen.
    rewrite lookup_app_r in Hi by lia.
    replace (i - length l) with 0 in Hi by lia. by simplify_eq/=.
Qed.

Lemma chain_app_r adj pre l : chain adj (pre ++ l) → chain adj l.
Proof.
  intros Hc i u v Hi Hs. apply (Hc (length pre + i)).
  - by rewrite lookup_app_r, Nat.add_comm, Nat.add_sub by lia.
  - replace (S (length pre + i)) with (length pre + S i) by lia.
    by rewrite lookup_app_r, Nat.add_comm, Nat.add_sub by lia.
Qed.

(** [suffix_from] returns the part of the path that starts at its first
    [cur]. *)
Lemma suffix_from_Some cur vertices vs :
  suffix_from cur vertices = Some vs →
  ∃ pre rest, vertices = pre ++ vs ∧ vs = cur :: rest.
Proof.
  induction vertices as [|v vertices IH]; simpl; [done|].
  case_decide as Hv.
  - intros [= <-]. exists [], vertices. by subst.
  - intros (pre & rest & -> & ->)%IH. by exists (v :: pre), rest.
Qed.

Lemma suffix_from_None cur vertices :
  suffix_from cur vertices = None → cur ∉ vertices.
Proof.
  induction vertices as [|v vertices IH]; simpl; [by intros _ ?%elem_of_nil|].
  case_decide; [done|]. intros Hn%IH. rewrite elem_of_cons. naive_solver.
Qed.

(** A path that leads back to one of its vertices closes a cycle. *)
Lemma chain_cycle adj pre cur rest :
  chain adj ((pre ++ cur :: rest) ++ [cur]) → is_cycle adj (cur :: rest).
Proof.
  rewrite <-app_assoc. intros Hc%chain_app_r. split; [done|].
  intros i u v Hi Hs.
  pose proof (lookup_lt_Some _ _ _ Hi) as Hlt.
  destruct (decide (S i < length (cur :: rest))) as [Hin|Hlast].
  - rewrite Nat.mod_small in Hs by lia. apply (Hc i).
    + by apply lookup_app_l_Some.
    + rewrite Nat.add_1_r in Hs. by apply lookup_app_l_Some.
  - assert (i + 1 = length (cur :: rest)) as Heq by lia.
    rewrite Heq, Nat.Div0.mod_same in Hs. simpl in Hs. simplify_eq.
    apply (Hc i).
    + by apply lookup_app_l_Some.
    + rewrite lookup_app_r by lia.
      replace (S i - length (v :: rest)) with 0 by lia. done.
Qed.

Section dfs_sound.
Variable adj : gmap Z (list Z).

Lemma dfs_children_sound
    (rec : Z → list Z → gset Z → gset Z → option dfs_result) (path : list Z) :
  (∀ cur vis gvis vs vis' gvis',
      edge adj (default 0%Z (last path)) cur →
      (∀ x, x ∈ path → x ∈ gvis) →
      rec cur path vis gvis = Some (Some vs, vis', gvis') →
      simple_cycle adj vs) →
  (∀ cur vis gvis r vis' gvis',
      rec cur path vis gvis = Some (r, vis', gvis') → gvis ⊆ gvis') →
  ∀ children vis gvis vs vis' gvis',
    (∀ v, v ∈ children → edge adj (default 0%Z (last path)) v) →
    (∀ x, x ∈ path → x ∈ gvis) →
    dfs_children rec path children vis gvis = Some (Some vs, vis', gvis') →
    simple_cycle adj vs.
Proof.
  intros Hrec Hmono children.
  induction children as [|c children IH]; intros vis gvis vs vis' gvis' He Hp;
    simpl; [done|].
  destruct (rec c path vis gvis) as [[[[r|] vis1] gvis1]|] eqn:Hc; [| |done].
  - intros [= <- <- <-]. eapply Hrec; [|done|done]. apply He. by left.
  - apply IH.
    + intros v Hv. apply He. by right.
    + intros x Hx. apply (Hmono _ _ _ _ _ _ Hc). by apply Hp.
Qed.

Lemma dfs_children_mono
    (rec : Z → list Z → gset Z → gset Z → option dfs_result) (path : list Z) :
  (∀ cur vis gvis r vis' gvis',
      rec cur path vis gvis = Some (r, vis', gvis') → gvis ⊆ gvis') →
  ∀ children vis gvis r vis' gvis',
    dfs_children rec path children vis gvis = Some (r, vis', gvis') →
    gvis ⊆ gvis'.
Proof.
  intros Hmono children.
  induction children as [|c children IH]; intros vis gvis r vis' gvis'; simpl.
  { by intros [= <- <- <-]. }
  destruct (rec c path vis gvis) as [[[[r1|] vis1] gvis1]|] eqn:Hc; [| |done].
  - intros [= <- <- <-]. by eapply Hmono.
  - intros Hrest%IH. apply Hmono in Hc. set_solver.
Qed.

(** The global visited set only grows. *)
Lemma dfs_mono fuel cur vertices vis gvis r vis' gvis' :
  dfs fuel adj cur vertices vis gvis = Some (r, vis', gvis') → gvis ⊆ gvis'.
Proof.
  revert cur vertices vis gvis r vis' gvis'.
  induction fuel as [|fuel IH]; intros cur vertices vis gvis r vis' gvis';
    simpl; [done|].
  destruct (if decide (cur ∈ vis) then suffix_from cur vertices else None).
  { by intros [= <- <- <-]. }
  case_decide; [by intros [= <- <- <-]|].
  intros Hc%dfs_children_mono; [set_solver|].
  intros ???????. by eapply IH.
Qed.

(** A list returned by [dfs] is a cycle of the graph without a repeated
    vertex, when the path so far is a path of distinct visited vertices
    that leads to [cur]. *)
Lemma dfs_sound fuel cur vertices vis gvis vs vis' gvis' :
  chain adj (vertices ++ [cur]) → NoDup vertices →
  (∀ x, x ∈ vertices → x ∈ gvis) →
  dfs fuel adj cur vertices vis gvis = Some (Some vs, vis', gvis') →
  simple_cycle adj vs.
Proof.
  revert cur vertices vis gvis vs vis' gvis'.
  induction fuel as [|fuel IH]; intros cur vertices vis gvis vs vis' gvis'
    Hchain Hnd Hvis; simpl; [done|].
  destruct (if decide (cur ∈ vis) then suffix_from cur vertices else None)
    as [found|] eqn:Hfound.
  { intros [= <- <- <-]. case_decide; [|done].
    apply suffix_from_Some in Hfound as (pre & rest & -> & ->). split.
    - by eapply chain_cycle.
    - by apply NoDup_app in Hnd as (_ & _ & ?). }
  destruct (decide (cur ∈ gvis)) as [Hg|Hg]; [done|].
  apply (dfs_children_sound (dfs fuel adj) (vertices ++ [cur])).
  - intros c vis0 gvis0 vs0 vis0' gvis0' Hedge Hp.
    rewrite last_snoc in Hedge. simpl in Hedge. apply IH.
    + by apply chain_snoc.
    + apply NoDup_app. split_and!; [done| |apply NoDup_singleton].
      intros x Hx ->%list_elem_of_singleton. by apply Hg, Hvis.
    + done.
  - intros ???????. by eapply dfs_mono.
  - intros v Hv. by rewrite last_snoc.
  - intros x [Hx| ->%list_elem_of_singleton]%elem_of_app; [|set_solver].
    apply Hvis in Hx. set_solver.
Qed.

Lemma find_from_sound fuel ks gvis vs :
  find_from fuel adj ks gvis = Some (Returned vs) → simple_cycle adj vs.
Proof.
  revert gvis. induction ks as [|v ks IH]; intros gvis; simpl; [done|].
  destruct (dfs fuel adj v [] ∅ gvis) as [[[[found|] vis'] gvis']|] eqn:Hdfs;
    [| |done].
  - intros [= <-]. eapply dfs_sound; [| | |done].
    + apply chain_singleton.
    + constructor.
    + by intros x ?%elem_of_nil.
  - apply IH.
Qed.

End dfs_sound.


(** ** The depth-first search misses no cycle *)

Lemma suffix_from_elem_of cur vertices :
  cur ∈ vertices → is_Some (suffix_from cur vertices).
Proof.
  induction vertices as [|v vertices IH]; simpl; [by intros ?%elem_of_nil|].
  case_decide; [by eexists|].
  intros [?|?]%elem_of_cons; [congruence|by apply IH].
Qed.

Lemma finished_nil adj : finished adj [].
Proof. intros i u v Hi. by rewrite lookup_nil in Hi. Qed.

Lemma finished_snoc adj fin u :
  finished adj fin → (∀ v, v ∈ succs adj u → v ∈ fin) →
  finished adj (fin ++ [u]).
Proof.
  intros Hfin Hu i x v Hi Hv.
  destruct (decide (i < length fin)) as [Hlt|Hge].
  - rewrite lookup_app_l in Hi by done.
    destruct (Hfin i x v Hi Hv) as (j & Hj & Hjv).
    exists j. split; [done|]. by apply lookup_app_l_Some.
  - rewrite lookup_app_r in Hi by lia.
    apply list_lookup_singleton_Some in Hi as [Hi ->].
    apply Hu, list_elem_of_lookup in Hv as [j Hj].
    exists j. split; [apply lookup_lt_Some in Hj; lia|].
    by apply lookup_app_l_Some.
Qed.

(** No cycle passes through a vertex that the search has left. *)
Lemma finished_no_cycle adj fin i u :
  finished adj fin → fin !! i = Some u → ¬ tc (edge adj) u u.
Proof.
  intros Hfin. revert u.
  induction (lt_wf i) as [i _ IH]. intros u Hi Hcyc.
  assert (∀ x y, tc (edge adj) x y → ∀ k, fin !! k = Some x →
                 ∃ j, j < k ∧ fin !! j = Some y) as Hdown.
  { induction 1 as [x y Hxy|x y z Hxy _ IHtc]; intros k Hk.
    - by apply (Hfin k x y).
    - destruct (Hfin k x y Hk Hxy) as (j & Hj & Hjy).
      destruct (IHtc j Hjy) as (j' & Hj' & Hjz). exists j'. split; [lia|done]. }
  destruct (Hdown u u Hcyc i Hi) as (j & Hj & Hju).
  by apply (IH j Hj u Hju).
Qed.

Section dfs_complete.
Variable adj : gmap Z (list Z).

Lemma dfs_children_complete
    (rec : Z → list Z → gset Z → gset Z → option dfs_result) (path : list Z) :
  (∀ cur fin vis gvis vis' gvis',
      search_inv adj fin path vis gvis →
      rec cur path vis gvis = Some (None, vis', gvis') →
      left_ok adj fin path vis [cur] (None, vis', gvis')) →
  ∀ children fin vis gvis vis' gvis',
    search_inv adj fin path vis gvis →
    dfs_children rec path children vis gvis = Some (None, vis', gvis') →
    left_ok adj fin path vis children (None, vis', gvis').
Proof.
  intros Hrec children.
  induction children as [|c children IH]; intros fin vis gvis vis' gvis' Hinv;
    simpl.
  { intros [= <- <-]. exists []. rewrite app_nil_r. split; [done|].
    split; [done|]. by intros v ?%elem_of_nil. }
  destruct (rec c path vis gvis) as [[[[r|] vis1] gvis1]|] eqn:Hc; [done| |done].
  intros Hrest.
  destruct (Hrec c fin vis gvis vis1 gvis1 Hinv Hc) as (ext & Hinv1 & Hvis1 & Hc1).
  simpl in *.
  destruct (IH _ _ _ _ _ Hinv1 Hrest) as (ext' & Hinv2 & Hvis2 & Hrest2).
  simpl in *. exists (ext ++ ext'). rewrite app_assoc. split; [done|].
  split; [set_solver|].
  intros v [->|Hv]%elem_of_cons; [|by apply Hrest2].
  apply elem_of_app. left. apply Hc1. by left.
Qed.

(** A call of [dfs] that returns [nil] has left [cur], and every vertex
    that it has left comes after its successors. *)
Lemma dfs_complete fuel cur vertices fin vis gvis vis' gvis' :
  search_inv adj fin vertices vis gvis →
  dfs fuel adj cur vertices vis gvis = Some (None, vis', gvis') →
  left_ok adj fin vertices vis [cur] (None, vis', gvis').
Proof.
  revert cur vertices fin vis gvis vis' gvis'.
  induction fuel as [|fuel IH]; intros cur vertices fin vis gvis vis' gvis' Hinv;
    simpl; [done|].
  destruct (if decide (cur ∈ vis) then suffix_from cur vertices else None)
    as [found|] eqn:Hfound; [done|].
  destruct (decide (cur ∈ gvis)) as [Hg|Hg].
  { intros [= <- <-]. exists []. rewrite app_nil_r. split; [done|].
    split; [done|]. intros v ->%list_elem_of_singleton.
    apply (search_gvis _ _ _ _ _ Hinv) in Hg as [Hg|Hg]; [done|].
    pose proof (search_path _ _ _ _ _ Hinv _ Hg) as Hvis.
    rewrite decide_True in Hfound by done.
    destruct (suffix_from_elem_of cur vertices Hg) as [? ?]. congruence. }
  intros Hloop.
  assert (search_inv adj fin (vertices ++ [cur]) ({[cur]} ∪ vis) ({[cur]} ∪ gvis))
    as Hinv1.
  { destruct Hinv as [Hf Hgv Hp Hv]. split; [done| | |set_solver].
    - intros x. rewrite elem_of_union, elem_of_app, Hgv. set_solver.
    - intros x. rewrite elem_of_app. set_solver. }
  destruct (dfs_children_complete (dfs fuel adj) (vertices ++ [cur])
              (λ c f v g v' g', IH c (vertices ++ [cur]) f v g v' g')
              _ _ _ _ _ _ Hinv1 Hloop) as (ext & Hinv2 & Hvis2 & Hsucc).
  simpl in *. exists (ext ++ [cur]). rewrite app_assoc.
  destruct Hinv2 as [Hf Hgv Hp Hv]. split; [split|]; simpl.
  - by apply finished_snoc.
  - intros x. rewrite Hgv, !elem_of_app. set_solver.
  - intros x Hx. apply Hp, elem_of_app. by left.
  - done.
  - split; [set_solver|]. intros v ->%list_elem_of_singleton.
    apply elem_of_app. right. by left.
Qed.

Lemma find_from_complete fuel ks fin gvis msg :
  finished adj fin → (∀ x, x ∈ gvis ↔ x ∈ fin) →
  find_from fuel adj ks gvis = Some (Panicked msg) →
  ∃ ext, finished adj (fin ++ ext) ∧ ∀ v, v ∈ ks → v ∈ fin ++ ext.
Proof.
  revert fin gvis. induction ks as [|v ks IH]; intros fin gvis Hfin Hg; simpl.
  { intros _. exists []. rewrite app_nil_r. split; [done|].
    by intros v ?%elem_of_nil. }
  destruct (dfs fuel adj v [] ∅ gvis) as [[[[found|] vis'] gvis']|] eqn:Hdfs;
    [done| |done].
  intros Hrest.
  destruct (dfs_complete fuel v [] fin ∅ gvis vis' gvis') as (ext & Hinv & _ & Hv);
    [|done|].
  { split; [done| |by intros x ?%elem_of_nil|set_solver].
    intros x. rewrite Hg. set_solver. }
  simpl in *. destruct Hinv as [Hf Hgv _ _].
  destruct (IH (fin ++ ext) gvis' Hf) as (ext' & Hfin' & Hks); [|done|].
  { intros x. rewrite Hgv. set_solver. }
  exists (ext ++ ext'). rewrite app_assoc. split; [done|].
  intros w [->|Hw]%elem_of_cons; [|by apply Hks].
  apply elem_of_app. left. apply Hv. by left.
Qed.

End dfs_complete.


(** ** What [findCycleVertices] returns *)

Lemma is_cycle_cyclic adj vs : is_cycle adj vs → cyclic adj.
Proof.
  intros [Hne Hedges]. destruct vs as [|v vs]; [done|]. exists v.
  (* from the vertex at index [i], the walk leads back to the first one *)
  assert (∀ k i u, k + i = length vs → (v :: vs) !! i = Some u →
                   tc (edge adj) u v) as Hwalk.
  { induction k as [|k IH]; intros i u Hk Hi.
    - apply tc_once, (Hedges i); [done|].
      replace (i + 1) with (length (v :: vs)) by (simpl; lia).
      by rewrite Nat.Div0.mod_same.
    - destruct (lookup_lt_is_Some_2 (v :: vs) (S i)) as [w Hw]; [simpl; lia|].
      apply tc_l with w; [|apply (IH (S i)); [lia|done]].
      apply (Hedges i); [done|].
      rewrite Nat.mod_small by (simpl; lia). by rewrite Nat.add_1_r. }
  by apply (Hwalk (length vs) 0).
Qed.

(** Property X1.  Whatever the order of the keys and the fuel, a list that
    [findCycleVertices] returns is a cycle of the graph: it is not empty,
    each vertex has an edge to the next one and the last an edge to the
    first, and no vertex occurs twice in it. *)
Theorem X1_findCycleVertices_returns_a_cycle (fuel : nat) (ks : list Z)
    (adj : gmap Z (list Z)) (vs : list Z) :
  findCycleVertices fuel ks adj = Some (Returned vs) →
  is_cycle adj vs ∧ NoDup vs ∧ cyclic adj.
Proof.
  intros Hfind. destruct (find_from_sound adj fuel ks ∅ vs Hfind) as [Hc Hnd].
  split; [done|]. split; [done|]. by eapply is_cycle_cyclic.
Qed.

Lemma X1_findCycleVertices_witness :
  let adj := adjList (run Sample.fs Sample.lasso) in
  is_cycle adj [3; 4]%Z ∧ NoDup [3; 4]%Z ∧ cyclic adj.
Proof.
  apply (X1_findCycleVertices_returns_a_cycle 8 [1; 2; 3; 4]%Z
           (adjList (run Sample.fs Sample.lasso)) [3; 4]%Z).
  by vm_compute.
Defined.

(** A panic of [findCycleVertices] after all keys means that no cycle
    exists. *)
Lemma findCycleVertices_panic_acyclic fuel ks adj msg :
  range_order adj ks →
  findCycleVertices fuel ks adj = Some (Panicked msg) →
  acyclic adj.
Proof.
  intros Hks Hfind.
  destruct (find_from_complete adj fuel ks [] ∅ msg) as (fin & Hfin & Hall);
    [apply finished_nil|set_solver|done|].
  simpl in *. intros v Hcyc.
  assert (∃ w, edge adj v w) as [w Hvw].
  { inversion Hcyc; by eauto. }
  assert (v ∈ ks) as Hv.
  { apply (range_order_elem_of adj ks v Hks). unfold edge, succs in Hvw.
    destruct (adj !! v); [by eexists|]. by apply elem_of_nil in Hvw. }
  apply Hall, list_elem_of_lookup in Hv as [i Hi].
  by apply (finished_no_cycle adj fin i v).
Qed.

(** Property X2.  [findCycleVertices] reaches its panic only on a graph
    without a cycle: when the loop has tried every key of the adjacency
    map and every search has returned [nil], no path of the graph leads
    from a vertex back to itself. *)
Theorem X2_findCycleVertices_panics_only_without_cycle (fuel : nat)
    (ks : list Z) (adj : gmap Z (list Z)) (msg : string) :
  range_order adj ks →
  findCycleVertices fuel ks adj = Some (Panicked msg) →
  acyclic adj.
Proof. apply findCycleVertices_panic_acyclic. Qed.

Lemma X2_findCycleVertices_panic_witness :
  acyclic (adjList (run Sample.fs Sample.tree)).
Proof.
  apply (X2_findCycleVertices_panics_only_without_cycle 8 [1; 2; 3; 4]%Z
           (adjList (run Sample.fs Sample.tree))
           "unreachable (expected a cycle to exist)").
  - closed_order.
  - by vm_compute.
Defined.

(** Property X3.  On a graph that has a cycle and whose edges all lead to
    keys of the adjacency map (as in every state built by the visit
    function), [findCycleVertices] returns, for every order of the keys and
    with fuel above the number of keys, a list that is a cycle of the graph
    without a repeated vertex; it does not panic. *)
Theorem X3_findCycleVertices_finds_a_cycle (fuel : nat) (ks : list Z)
    (adj : gmap Z (list Z)) :
  range_order adj ks →
  (∀ u l v, adj !! u = Some l → v ∈ l → is_Some (adj !! v)) →
  size adj < fuel →
  cyclic adj →
  ∃ vs, findCycleVertices fuel ks adj = Some (Returned vs) ∧
        simple_cycle adj vs.
Proof.
  intros Hks Hclosed Hfuel [v Hcyc].
  destruct (findCycleVertices_returns fuel ks adj Hks Hclosed Hfuel)
    as [[vs|msg] Hfind].
  - exists vs. split; [done|]. by apply (find_from_sound adj fuel ks ∅).
  - destruct (findCycleVertices_panic_acyclic fuel ks adj msg Hks Hfind v Hcyc).
Qed.

Lemma X3_findCycleVertices_finds_witness :
  let adj := adjList (run Sample.fs Sample.lasso) in
  ∃ vs, findCycleVertices 5 [4; 3; 2; 1]%Z adj = Some (Returned vs) ∧
        simple_cycle adj vs.
Proof.
  apply (X3_findCycleVertices_finds_a_cycle 5 [4; 3; 2; 1]%Z
           (adjList (run Sample.fs Sample.lasso))).
  - closed_order.
  - intros u l v Hu Hv.
    apply (inv_targets (insertions Sample.fs Sample.lasso)
             (run Sample.fs Sample.lasso)) with u l; [|done|done].
    apply graph_inv_run. by vm_compute.
  - vm_compute. lia.
  - apply lasso_cyclic.
Defined.


(** ** The trace printed by finalize *)

Lemma drop_cons_inv {A} (l : list A) i x rest :
  drop i l = x :: rest → l !! i = Some x ∧ drop (S i) l = rest.
Proof.
  intros Hd. split.
  - by rewrite <-(Nat.add_0_r i), <-lookup_drop, Hd.
  - replace (S i) with (i + 1) by lia. by rewrite <-drop_drop, Hd.
Qed.

(** The lines added by the printing loop, one per vertex it gets through:
    all of them when it returns; when it panics, those before the first
    pair for which [edgeMeta] holds no include node. *)
Lemma report_lines cc imports todo i out :
  drop i imports = todo →
  ∃ ds,
    printed (report cc imports i todo out) = out ++ (EdgeLine <$> ds) ∧
    length ds ≤ length todo ∧
    (∀ out', report cc imports i todo out = Done out' →
             length ds = length todo) ∧
    (∀ out' msg, report cc imports i todo out = Panic out' msg →
       length ds < length todo ∧
       ∃ u v, imports !! (i + length ds) = Some u ∧
              imports !! ((i + length ds + 1) `mod` length imports) = Some v ∧
              edge_include cc u v = None) ∧
    ∀ k d, ds !! k = Some d →
      imports !! (i + k) = Some (d_from d) ∧
      imports !! ((i + k + 1) `mod` length imports) = Some (d_to d) ∧
      edge_include cc (d_from d) (d_to d) = Some (d_inc d) ∧
      d_file d = default "" (idToFilename cc !! d_from d).
Proof.
  revert i out. induction todo as [|im todo IH]; intros i out Hdrop; simpl.
  { exists []. rewrite app_nil_r. split; [done|]. split; [done|].
    split; [done|]. split; [done|]. intros k d Hk. by rewrite lookup_nil in Hk. }
  apply drop_cons_inv in Hdrop as [Him Hdrop].
  pose proof (lookup_lt_Some _ _ _ Him) as Hlt.
  destruct (lookup_lt_is_Some_2 imports ((i + 1) `mod` length imports))
    as [next Hnext]; [apply Nat.mod_upper_bound; lia|].
  rewrite Hnext. simpl.
  destruct (edge_include cc im next) as [inc|] eqn:Hinc.
  - destruct (IH (S i) (out ++ [EdgeLine
                 (mkDiag im next (default "" (idToFilename cc !! im)) inc)])
                Hdrop) as (ds & Hprinted & Hlen & Hdone & Hpanic & Hds).
    exists (mkDiag im next (default "" (idToFilename cc !! im)) inc :: ds).
    split; [by rewrite Hprinted, <-app_assoc|].
    split; [simpl; lia|]. split; [|split].
    + intros out' Hr. simpl. f_equal. by eapply Hdone.
    + intros out' msg Hr. destruct (Hpanic out' msg Hr) as (Hlt' & u & v & Hu & Hv & Huv).
      split; [simpl; lia|]. exists u, v. simpl.
      replace (i + S (length ds)) with (S i + length ds) by lia. done.
    + intros [|k] d Hk; simpl in Hk.
      * simplify_eq. simpl. by rewrite !Nat.add_0_r.
      * replace (i + S k) with (S i + k) by lia. by apply Hds.
  - exists []. simpl. rewrite app_nil_r. split; [done|]. split; [lia|].
    split; [done|]. split.
    + intros _ _ _. split; [lia|]. exists im, next.
      by rewrite !Nat.add_0_r.
    + intros k d Hk. by rewrite lookup_nil in Hk.
Qed.

(** What [lookForCycle] returns without a panic. *)
Lemma lookForCycle_returned fuel ks1 ks2 adj inDeg inDeg' imports cycle :
  lookForCycle fuel ks1 ks2 adj inDeg = Some (inDeg', Returned (imports, cycle)) →
  (imports = None ∧ cycle = false) ∨
  ∃ vs, imports = Some vs ∧ cycle = true ∧ simple_cycle adj vs.
Proof.
  unfold lookForCycle.
  destruct (kahn_pass fuel ks1 adj inDeg) as [[inDeg0 count]|]; [|done].
  case_decide; [|intros [= <- <- <-]; by left].
  destruct (findCycleVertices fuel ks2 adj) as [[vs|msg]|] eqn:Hfind; [|done..].
  intros [= <- <- <-]. right. exists vs. split; [done|]. split; [done|].
  by apply (find_from_sound adj fuel ks2 ∅).
Qed.

(** Property X4.  Whatever finalize prints is the header followed by
    lines that walk along one real cycle of the accumulated graph: the
    line of rank [k] goes from the vertex of rank [k] of a cycle without
    repeated vertex to the next vertex of that cycle (the first one after
    the last), this pair is an edge of the graph, the include node shown is
    the one recorded for the pair in [edgeMeta], and the file shown is
    [idToFilename] of the importer.  When finalize returns there is one such
    line for every vertex of the cycle; when it panics there are fewer: the
    lines stop before the first step of the cycle for which [edgeMeta]
    holds no include node. *)
Theorem X4_finalize_prints_edges_of_a_cycle (fuel : nat) (ks1 ks2 : list Z)
    (cc cc' : C) (r : result) :
  finalize fuel ks1 ks2 cc = Some (r, cc') →
  printed r = [] ∨
  ∃ vs ds,
    simple_cycle (adjList cc) vs ∧
    printed r = CycleDetected :: (EdgeLine <$> ds) ∧
    length ds ≤ length vs ∧
    (∀ out, r = Done out → length ds = length vs) ∧
    (∀ out msg, r = Panic out msg →
       length ds < length vs ∧
       ∃ u v, vs !! length ds = Some u ∧
              vs !! ((length ds + 1) `mod` length vs) = Some v ∧
              edge_include cc u v = None) ∧
    ∀ k d, ds !! k = Some d →
      vs !! k = Some (d_from d) ∧
      vs !! ((k + 1) `mod` length vs) = Some (d_to d) ∧
      edge (adjList cc) (d_from d) (d_to d) ∧
      edge_include cc (d_from d) (d_to d) = Some (d_inc d) ∧
      d_file d = default "" (idToFilename cc !! d_from d).
Proof.
  unfold finalize.
  destruct (lookForCycle fuel ks1 ks2 (adjList cc) (inDegrees cc))
    as [[inDeg' [[imports cycle]|msg]]|] eqn:Hlook; [| |done].
  2:{ intros [= <- <-]. by left. }
  apply lookForCycle_returned in Hlook
      as [[-> ->]|(vs & -> & -> & Hcycle)].
  { intros [= <- <-]. by left. }
  simpl. intros [= <- <-]. right.
  destruct (report_lines (set_inDegrees inDeg' cc) vs vs 0 [CycleDetected])
    as (ds & Hprinted & Hlen & Hdone & Hpanic & Hds); [done|].
  exists vs, ds. split; [done|]. split; [done|]. split; [done|].
  split; [intros out Hr; by eapply Hdone|].
  split; [intros out msg Hr; by eapply Hpanic|].
  intros k d Hk. destruct (Hds k d Hk) as (Hfrom & Hto & Hinc & Hfile).
  simpl in *. split; [done|]. split; [done|].
  split; [|done]. by apply (proj2 (proj1 Hcycle) k).
Qed.

Lemma X4_finalize_prints_witness :
  let cc := run Sample.fs [("x", Sample.inc "y" 1); ("y", Sample.inc "x" 1)] in
  let r := Done
    [CycleDetected;
     EdgeLine (mkDiag 1 2 "x" (Sample.inc "y" 1));
     EdgeLine (mkDiag 2 1 "y" (Sample.inc "x" 1))] in
  printed r = [] ∨
  ∃ vs ds,
    simple_cycle (adjList cc) vs ∧
    printed r = CycleDetected :: (EdgeLine <$> ds) ∧
    length ds ≤ length vs ∧
    (∀ out, r = Done out → length ds = length vs) ∧
    (∀ out msg, r = Panic out msg →
       length ds < length vs ∧
       ∃ u v, vs !! length ds = Some u ∧
              vs !! ((length ds + 1) `mod` length vs) = Some v ∧
              edge_include cc u v = None) ∧
    ∀ k d, ds !! k = Some d →
      vs !! k = Some (d_from d) ∧
      vs !! ((k + 1) `mod` length vs) = Some (d_to d) ∧
      edge (adjList cc) (d_from d) (d_to d) ∧
      edge_include cc (d_from d) (d_to d) = Some (d_inc d) ∧
      d_file d = default "" (idToFilename cc !! d_from d).
Proof.
  eapply (X4_finalize_prints_edges_of_a_cycle 8 [1; 2]%Z [1; 2]%Z).
  vm_compute. reflexivity.
Defined.


(** ** How the state records the insertions *)

Lemma getFilenameId_back seen c f :
  ids_inv seen c →
  (Z.of_nat (length seen) < Int.max_int)%Z →
  (∀ v p, idToFilename c !! v = Some p ↔ filenameToId c !! p = Some v) →
  ∀ v p, idToFilename (getFilenameId c f).1 !! v = Some p ↔
         filenameToId (getFilenameId c f).1 !! p = Some v.
Proof.
  intros Hids Hlen Hback v p. unfold getFilenameId.
  destruct (filenameToId c !! f) as [w|] eqn:Hf; simpl; [apply Hback|].
  destruct Hids as [Hnd Hsz Hlk].
  rewrite Hsz, int_add_small
    by (unfold Int.in_range, Int.min_int, Int.max_int in *; lia).
  set (n := (Z.of_nat (length seen) + 1)%Z).
  assert (∀ q, filenameToId c !! q ≠ Some n) as Hfresh.
  { intros q (k & Hk & Heq)%Hlk. apply lookup_lt_Some in Hk. lia. }
  destruct (decide (v = n)) as [->|Hv]; destruct (decide (p = f)) as [->|Hp].
  - by rewrite !lookup_insert_eq.
  - rewrite lookup_insert_eq, lookup_insert_ne by done. split.
    + intros [= ->]. done.
    + intros Hq. by destruct (Hfresh p).
  - rewrite lookup_insert_ne, lookup_insert_eq by done. split.
    + intros Hq%Hback. congruence.
    + intros [= ->]. done.
  - rewrite !lookup_insert_ne by done. apply Hback.
Qed.

(** The two id lookups of one edge insertion. *)
Lemma add_edge_lookups seen cc pa pb :
  ids_inv seen cc →
  (Z.of_nat (length seen) + 1 < Int.max_int)%Z →
  let ca := (getFilenameId cc pa).1 in
  let cb := (getFilenameId ca pb).1 in
  let a := (getFilenameId cc pa).2 in
  let b := (getFilenameId ca pb).2 in
  (∃ seen2, ids_inv seen2 cb) ∧
  (adjList cb = adjList cc ∧ inDegrees cb = inDegrees cc ∧
   edgeMeta cb = edgeMeta cc) ∧
  filenameToId cb !! pa = Some a ∧
  filenameToId cb !! pb = Some b ∧
  (∀ p v, filenameToId cc !! p = Some v → filenameToId cb !! p = Some v) ∧
  (∀ p v, filenameToId cb !! p = Some v →
          (p = pa ∧ v = a) ∨ (p = pb ∧ v = b) ∨ filenameToId cc !! p = Some v) ∧
  ((∀ v p, idToFilename cc !! v = Some p ↔ filenameToId cc !! p = Some v) →
   ∀ v p, idToFilename cb !! v = Some p ↔ filenameToId cb !! p = Some v).
Proof.
  intros Hids Hlen ca cb a b.
  destruct (getFilenameId_ids_inv seen cc pa Hids) as [Hids1 _]; [lia|].
  pose proof (getFilenameId_seen_length seen pa) as Hlen1.
  set (seen1 := if decide (pa ∈ seen) then seen else seen ++ [pa]) in *.
  fold ca in Hids1.
  destruct (getFilenameId_ids_inv seen1 ca pb Hids1) as [Hids2 _]; [lia|].
  fold cb in Hids2.
  assert (filenameToId cb !! pa = Some a) as Hpa
    by apply getFilenameId_preserved, getFilenameId_lookup.
  assert (filenameToId cb !! pb = Some b) as Hpb
    by apply getFilenameId_lookup.
  split; [by eexists|]. split.
  { unfold cb. destruct (getFilenameId_graph ca pb) as (-> & -> & ->).
    unfold ca. by destruct (getFilenameId_graph cc pa) as (-> & -> & ->). }
  split; [done|]. split; [done|]. split.
  { intros p v Hp. by do 2 apply getFilenameId_preserved. }
  split.
  { intros p v Hp. destruct (getFilenameId_inv _ _ _ _ Hp) as [->|Hp1].
    { right; left. split; [done|congruence]. }
    destruct (getFilenameId_inv _ _ _ _ Hp1) as [->|Hp0]; [|by auto].
    left. split; [done|]. fold ca cb in Hp. congruence. }
  intros Hback. apply (getFilenameId_back seen1 ca pb Hids1); [lia|].
  by apply (getFilenameId_back seen cc pa Hids); [lia|].
Qed.

Lemma insertions_from_snoc p ins pa pb i :
  insertions_from p (ins ++ [(pa, pb, i)])
  = insertions_from p ins ++ (if decide (pa = p) then [(pa, pb, i)] else []).
Proof.
  unfold insertions_from. rewrite filter_app. f_equal.
Qed.

Lemma insertions_from_unseen p ins :
  (∀ e, e ∈ ins → e.1.1 ≠ p) → insertions_from p ins = [].
Proof.
  intros Hne. unfold insertions_from.
  induction ins as [|e ins IH]; [done|].
  rewrite filter_cons, decide_False by (apply Hne; left).
  apply IH. intros e' He'. apply Hne. by right.
Qed.

Lemma insertions_from_elem_of p ins e :
  e ∈ insertions_from p ins → e ∈ ins ∧ e.1.1 = p.
Proof. unfold insertions_from. rewrite list_elem_of_filter. naive_solver. Qed.

Lemma trace_inv_empty : trace_inv [] circularImportCtx.
Proof.
  split; simpl.
  - by intros e ?%elem_of_nil.
  - intros v p. by rewrite !lookup_empty.
  - intros p a. by rewrite lookup_empty.
  - intros a. rewrite lookup_empty. by intros [? ?].
  - intros p a. by rewrite lookup_empty.
Qed.


(** One edge insertion extends the record of the insertions. *)
Lemma trace_inv_add_edge ins cc pa pb i :
  graph_inv ins cc → trace_inv ins cc →
  (2 * Z.of_nat (length ins) + 2 < Int.max_int)%Z →
  trace_inv (ins ++ [(pa, pb, i)]) (add_edge cc pa pb i).
Proof.
  intros Hinv Htr Hbound.
  destruct (inv_ids _ _ Hinv) as (seen & Hids & Hseen).
  destruct (add_edge_lookups seen cc pa pb Hids)
    as ([seen2 Hids2] & (Hadj & Hdeg & Hmeta) & Hpa & Hpb & Hmono & Hcases & Hback);
    [lia|].
  rewrite add_edge_unfold.
  set (cb := (getFilenameId (getFilenameId cc pa).1 pb).1) in *.
  set (a := (getFilenameId cc pa).2) in *.
  set (b := (getFilenameId (getFilenameId cc pa).1 pb).2) in *.
  assert (∀ p q v, filenameToId cb !! p = Some v →
                   filenameToId cb !! q = Some v → p = q) as Hinj
    by (intros p q v; apply (ids_inv_inj seen2 cb p q v Hids2)).
  destruct (insert_edge_ids cb a b i) as [Hf2i Hi2f].
  set (cc' := insert_edge cb a b i) in *.
  (* a path without an id has taken part in no insertion, and its id is
     new to the graph *)
  assert (∀ q, filenameToId cc !! q = None → insertions_from q ins = [])
    as Hfresh.
  { intros q Hq. apply insertions_from_unseen. intros e He <-.
    destruct (tr_importer _ _ Htr e He) as [w Hw]. congruence. }
  assert (∀ q w, filenameToId cb !! q = Some w →
                 filenameToId cc !! q = None →
                 adjList cc !! w = None ∧ edgeMeta cc !! w = None) as Hnew.
  { intros q w Hq Hnone. split.
    - destruct (adjList cc !! w) as [l|] eqn:Hw; [|done].
      destruct (proj1 (inv_vertex _ _ Hinv w)) as [q' Hq']; [by eexists|].
      assert (q' = q) as -> by (eapply Hinj; [by apply Hmono|done]).
      congruence.
    - destruct (edgeMeta cc !! w) as [m|] eqn:Hw; [|done].
      destruct (tr_meta_keys _ _ Htr w) as [q' Hq']; [by eexists|].
      assert (q' = q) as -> by (eapply Hinj; [by apply Hmono|done]).
      congruence. }
  assert (edgeMeta cc' = match edgeMeta cc !! a with
                         | Some _ => edgeMeta cc
                         | None => <[a := {[ b := i ]}]> (edgeMeta cc)
                         end) as Hmeta'.
  { unfold cc'. by rewrite insert_edge_edgeMeta, Hmeta. }
  split.
  - (* importers have ids *)
    intros e [He| ->%list_elem_of_singleton]%elem_of_app; rewrite Hf2i.
    + destruct (tr_importer _ _ Htr e He) as [v Hv]. exists v. by apply Hmono.
    + by eexists.
  - (* the id tables are inverse to each other *)
    rewrite Hf2i, Hi2f. apply Hback, Htr.
  - (* adjacency lists *)
    intros p v. rewrite Hf2i. intros Hp. rewrite insertions_from_snoc.
    assert (Forall2 (λ w e, filenameToId cb !! e.1.2 = Some w)
              (succs (adjList cc) v) (insertions_from p ins)) as Hold.
    { destruct (filenameToId cc !! p) as [w|] eqn:Hcc.
      - assert (w = v) as -> by (apply Hmono in Hcc; congruence).
        eapply Forall2_impl; [by apply (tr_adj _ _ Htr)|].
        intros x e He. by apply Hmono.
      - rewrite (Hfresh p Hcc). unfold succs.
        by rewrite (proj1 (Hnew p v Hp Hcc)). }
    destruct (decide (v = a)) as [->|Hva].
    + assert (p = pa) as -> by (by eapply Hinj).
      rewrite decide_True by done. unfold succs at 1. unfold cc'.
      rewrite insert_edge_adjList_importer, Hadj. simpl.
      apply Forall2_app; [done|]. by repeat constructor.
    + assert (pa ≠ p) as Hne by (intros ->; congruence).
      rewrite decide_False, app_nil_r by done.
      unfold succs at 1. unfold cc'.
      rewrite insert_edge_adjList_other, Hadj by done.
      case_decide; [by subst|done].
  - (* keys of the edge metadata *)
    intros v. rewrite Hf2i, Hmeta'.
    destruct (edgeMeta cc !! a) eqn:Ha.
    + intros [p Hp]%(tr_meta_keys _ _ Htr). exists p. by apply Hmono.
    + destruct (decide (v = a)) as [->|Hva]; [by eauto|].
      rewrite lookup_insert_ne by done.
      intros [p Hp]%(tr_meta_keys _ _ Htr). exists p. by apply Hmono.
  - (* the include node recorded for an importer *)
    intros p v. rewrite Hf2i. intros Hp. rewrite insertions_from_snoc.
    assert (edgeMeta cc !! v
            = match head (insertions_from p ins) with
              | Some e => (λ w, {[ w := e.2 ]}) <$> filenameToId cb !! e.1.2
              | None => None
              end) as Hold.
    { destruct (filenameToId cc !! p) as [w|] eqn:Hcc.
      - assert (w = v) as -> by (apply Hmono in Hcc; congruence).
        rewrite (tr_meta _ _ Htr _ _ Hcc).
        destruct (insertions_from p ins) as [|e rest] eqn:Hfrom; [done|].
        simpl. assert (e ∈ ins) as He.
        { apply (insertions_from_elem_of p). rewrite Hfrom. by left. }
        destruct (inv_seen _ _ Hinv e He) as [w Hw].
        by rewrite Hw, (Hmono _ _ Hw).
      - by rewrite (Hfresh p Hcc), (proj2 (Hnew p v Hp Hcc)). }
    rewrite Hmeta'. destruct (decide (v = a)) as [->|Hva].
    + assert (p = pa) as -> by (by eapply Hinj).
      rewrite decide_True by done.
      destruct (insertions_from pa ins) as [|e rest] eqn:Hfrom; simpl in *.
      * rewrite Hold, lookup_insert_eq. by rewrite Hpb.
      * assert (e ∈ ins) as He.
        { apply (insertions_from_elem_of pa). rewrite Hfrom. by left. }
        destruct (inv_seen _ _ Hinv e He) as [w Hw%Hmono].
        rewrite Hw in Hold |- *. simpl in *. by rewrite Hold.
    + assert (pa ≠ p) as Hne by (intros ->; congruence).
      rewrite decide_False, app_nil_r by done.
      destruct (edgeMeta cc !! a); [done|]. by rewrite lookup_insert_ne.
Qed.


Lemma trace_inv_build ins :
  (2 * Z.of_nat (length ins) < Int.max_int)%Z → trace_inv ins (build ins).
Proof.
  induction ins as [|[[pa pb] i] ins IH] using rev_ind; intros Hbound.
  { apply trace_inv_empty. }
  rewrite length_app in Hbound. simpl in Hbound.
  rewrite build_snoc.
  apply trace_inv_add_edge; [apply graph_inv_build|apply IH|]; lia.
Qed.

Lemma trace_inv_run E visits :
  (2 * Z.of_nat (length visits) < Int.max_int)%Z →
  trace_inv (insertions E visits) (run E visits).
Proof.
  intros Hbound. rewrite run_build. apply trace_inv_build.
  pose proof (insertions_length E visits). lia.
Qed.

(** Property X5.  After every run (of fewer than 2^62 include nodes), the
    two id tables are inverse to each other: [idToFilename[v]] is [p]
    exactly when [filenameToId[p]] is [v]. *)
Theorem X5_id_tables_are_inverse (E : FS) (visits : list (string * Include)) :
  (2 * Z.of_nat (length visits) < Int.max_int)%Z →
  let cc := run E visits in
  ∀ v p, idToFilename cc !! v = Some p ↔ filenameToId cc !! p = Some v.
Proof. intros Hbound cc. by apply (tr_back (insertions E visits)), trace_inv_run. Qed.

Lemma X5_id_tables_witness :
  let cc := run Sample.fs Sample.lasso in
  idToFilename cc !! 3%Z = Some "b" ↔ filenameToId cc !! "b" = Some 3%Z.
Proof. apply (X5_id_tables_are_inverse Sample.fs Sample.lasso). by vm_compute. Defined.

(** Property X6.  After every run (of fewer than 2^62 include nodes), the
    adjacency list of a file holds the ids of the files it included, one
    entry per include node whose two paths normalised, in the order in
    which these include nodes were visited (duplicates kept). *)
Theorem X6_adjacency_list_follows_visit_order (E : FS)
    (visits : list (string * Include)) (p : string) (a : Z) :
  (2 * Z.of_nat (length visits) < Int.max_int)%Z →
  let cc := run E visits in
  filenameToId cc !! p = Some a →
  Forall2 (λ v e, filenameToId cc !! e.1.2 = Some v)
          (succs (adjList cc) a)
          (insertions_from p (insertions E visits)).
Proof. intros Hbound cc. by apply tr_adj, trace_inv_run. Qed.

Lemma X6_adjacency_list_witness :
  let cc := run Sample.fs Sample.lasso in
  Forall2 (λ v e, filenameToId cc !! e.1.2 = Some v)
          (succs (adjList cc) 1)
          (insertions_from "a" (insertions Sample.fs Sample.lasso)).
Proof.
  apply (X6_adjacency_list_follows_visit_order Sample.fs Sample.lasso "a" 1);
    by vm_compute.
Defined.

(** Property X7.  After every run (of fewer than 2^62 include nodes), the
    entry of [edgeMeta] for a file is absent when the file has included
    nothing, and is otherwise the one-entry map that sends the id of the
    first file it included to the include node of that first include:
    later includes of the same file neither replace it nor add to it. *)
Theorem X7_edgeMeta_holds_first_include_of_importer (E : FS)
    (visits : list (string * Include)) (p : string) (a : Z) :
  (2 * Z.of_nat (length visits) < Int.max_int)%Z →
  let cc := run E visits in
  filenameToId cc !! p = Some a →
  match head (insertions_from p (insertions E visits)) with
  | None => edgeMeta cc !! a = None
  | Some e => ∃ b, filenameToId cc !! e.1.2 = Some b ∧
                   edgeMeta cc !! a = Some {[ b := e.2 ]}
  end.
Proof.
  intros Hbound cc Hp.
  pose proof (trace_inv_run E visits Hbound) as Htr.
  pose proof (graph_inv_run E visits Hbound) as Hinv. fold cc in Htr, Hinv.
  rewrite (tr_meta _ _ Htr _ _ Hp).
  destruct (insertions_from p (insertions E visits)) as [|e rest] eqn:Hfrom;
    [done|].
  simpl. assert (e ∈ insertions E visits) as He.
  { apply (insertions_from_elem_of p). rewrite Hfrom. by left. }
  destruct (inv_seen _ _ Hinv e He) as [b Hb]. exists b. by rewrite Hb.
Qed.

Lemma X7_edgeMeta_witness :
  let cc := run Sample.fs Sample.fan in
  match head (insertions_from "a" (insertions Sample.fs Sample.fan)) with
  | None => edgeMeta cc !! 1%Z = None
  | Some e => ∃ b, filenameToId cc !! e.1.2 = Some b ∧
                   edgeMeta cc !! 1%Z = Some {[ b := e.2 ]}
  end.
Proof.
  apply (X7_edgeMeta_holds_first_include_of_importer Sample.fs Sample.fan "a" 1);
    by vm_compute.
Defined.


(** ** What a visit keeps *)

Lemma visit_cases E cc f i :
  visit E cc f i = cc ∨
  ∃ pa pb, visit E cc f i
           = insert_edge (getFilenameId (getFilenameId cc pa).1 pb).1
               (getFilenameId cc pa).2
               (getFilenameId (getFilenameId cc pa).1 pb).2 i.
Proof.
  unfold visit. destruct (getRelPath E f) as [pa|]; [|by left].
  destruct (getRelPath E (Path i)) as [pb|]; [|by left].
  right. exists pa, pb. apply add_edge_unfold.
Qed.

(** One visit keeps every id, extends every adjacency list at its end, and
    keeps every entry of [edgeMeta]. *)
Lemma visit_keeps E cc f i :
  (∀ p v, filenameToId cc !! p = Some v →
          filenameToId (visit E cc f i) !! p = Some v) ∧
  (∀ u l, adjList cc !! u = Some l →
          ∃ l', adjList (visit E cc f i) !! u = Some (l ++ l')) ∧
  (∀ a m, edgeMeta cc !! a = Some m →
          edgeMeta (visit E cc f i) !! a = Some m).
Proof.
  destruct (visit_cases E cc f i) as [->|(pa & pb & ->)].
  { split; [done|]. split; [|done]. intros u l Hu. exists []. by rewrite app_nil_r. }
  set (ca := (getFilenameId cc pa).1).
  set (cb := (getFilenameId ca pb).1).
  set (a := (getFilenameId cc pa).2).
  set (b := (getFilenameId ca pb).2).
  assert (adjList cb = adjList cc ∧ edgeMeta cb = edgeMeta cc) as [Hadj Hmeta].
  { unfold cb. destruct (getFilenameId_graph ca pb) as (-> & _ & ->).
    unfold ca. by destruct (getFilenameId_graph cc pa) as (-> & _ & ->). }
  split; [|split].
  - intros p v Hp. destruct (insert_edge_ids cb a b i) as [-> _].
    by do 2 apply getFilenameId_preserved.
  - intros u l Hu. destruct (decide (u = a)) as [->|Hua].
    + exists [b]. rewrite insert_edge_adjList_importer, Hadj.
      unfold succs. by rewrite Hu.
    + exists []. rewrite insert_edge_adjList_other, Hadj, app_nil_r by done.
      case_decide; [subst u|done]. unfold succs. by rewrite Hu.
  - intros v m Hv. rewrite insert_edge_edgeMeta, Hmeta.
    destruct (edgeMeta cc !! a) eqn:Ha; [done|].
    rewrite lookup_insert_ne; [done|congruence].
Qed.

(** Property X8.  From any state on, visit calls never remove or change
    what is recorded: a path keeps its id, an adjacency list is only
    extended at its end, and an entry of [edgeMeta] stays as it is. *)
Theorem X8_visits_only_add (E : FS) (cc : C) (visits : list (string * Include)) :
  (∀ p v, filenameToId cc !! p = Some v →
          filenameToId (run_from E cc visits) !! p = Some v) ∧
  (∀ u l, adjList cc !! u = Some l →
          ∃ l', adjList (run_from E cc visits) !! u = Some (l ++ l')) ∧
  (∀ a m, edgeMeta cc !! a = Some m →
          edgeMeta (run_from E cc visits) !! a = Some m).
Proof.
  revert cc. induction visits as [|[f i] visits IH]; intros cc; simpl.
  { split; [done|]. split; [|done]. intros u l Hu. exists []. by rewrite app_nil_r. }
  destruct (visit_keeps E cc f i) as (Hid & Hadj & Hmeta).
  destruct (IH (visit E cc f i)) as (Hid' & Hadj' & Hmeta').
  split; [|split].
  - intros p v Hp. by apply Hid', Hid.
  - intros u l Hu. destruct (Hadj u l Hu) as [l1 Hl1].
    destruct (Hadj' u _ Hl1) as [l2 Hl2]. exists (l1 ++ l2).
    by rewrite app_assoc.
  - intros a m Ha. by apply Hmeta', Hmeta.
Qed.

(** Property X9.  One visit whose two paths normalise changes the graph
    only at the importer [a] and the importee [b]: the adjacency list and
    the in-degree of every other vertex, and the entry of [edgeMeta] of
    every vertex but [a], are what they were. *)
Theorem X9_visit_touches_only_its_two_vertices (E : FS) (cc : C)
    (f : string) (i : Include) (pa pb : string) (u : Z) :
  getRelPath E f = Some pa →
  getRelPath E (Path i) = Some pb →
  let a := (getFilenameId cc pa).2 in
  let b := (getFilenameId (getFilenameId cc pa).1 pb).2 in
  (u ≠ a → u ≠ b →
   adjList (visit E cc f i) !! u = adjList cc !! u ∧
   inDegrees (visit E cc f i) !! u = inDegrees cc !! u) ∧
  (u ≠ a → edgeMeta (visit E cc f i) !! u = edgeMeta cc !! u).
Proof.
  intros Ha Hb a b.
  rewrite (visit_normalised _ _ _ _ _ _ Ha Hb), add_edge_unfold. fold a b.
  set (ca := (getFilenameId cc pa).1).
  set (cb := (getFilenameId ca pb).1).
  assert (adjList cb = adjList cc ∧ inDegrees cb = inDegrees cc ∧
          edgeMeta cb = edgeMeta cc) as (Hadj & Hdeg & Hmeta).
  { unfold cb. destruct (getFilenameId_graph ca pb) as (-> & -> & ->).
    unfold ca. by destruct (getFilenameId_graph cc pa) as (-> & -> & ->). }
  split.
  - intros Hua Hub. split.
    + by rewrite insert_edge_adjList_other, decide_False, Hadj.
    + by rewrite insert_edge_inDegrees_other, decide_False, Hdeg.
  - intros Hua. rewrite insert_edge_edgeMeta, Hmeta.
    destruct (edgeMeta cc !! a); [done|]. by rewrite lookup_insert_ne.
Qed.

Lemma X9_visit_touches_witness :
  let cc := run Sample.fs Sample.tree in
  let a := (getFilenameId cc "c").2 in
  let b := (getFilenameId (getFilenameId cc "c").1 "e").2 in
  let cc' := visit Sample.fs cc "c" (Sample.inc "e" 7) in
  (2%Z ≠ a → 2%Z ≠ b →
   adjList cc' !! 2%Z = adjList cc !! 2%Z ∧
   inDegrees cc' !! 2%Z = inDegrees cc !! 2%Z) ∧
  (2%Z ≠ a → edgeMeta cc' !! 2%Z = edgeMeta cc !! 2%Z).
Proof.
  apply (X9_visit_touches_only_its_two_vertices Sample.fs
           (run Sample.fs Sample.tree) "c" (Sample.inc "e" 7) "c" "e" 2);
    by vm_compute.
Defined.

(** ** Runs without an edge *)

Lemma run_skipped E visits :
  (∀ f i, (f, i) ∈ visits →
          getRelPath E f = None ∨ getRelPath E (Path i) = None) →
  run E visits = circularImportCtx.
Proof.
  intros Hskip. rewrite run_build.
  assert (insertions E visits = []) as ->; [|done].
  induction visits as [|[f i] visits IH] using rev_ind; [done|].
  rewrite insertions_snoc, IH
    by (intros ???; apply Hskip, elem_of_app; by left).
  destruct (Hskip f i) as [-> | Hb]; [apply elem_of_app; right; by left|done|].
  destruct (getRelPath E f); by rewrite ?Hb.
Qed.

(** Property X10.  A run in which every include node is skipped (there is
    none, or for each one the importer or the importee fails to normalise)
    leaves the context as [CheckCircularImport] created it, and finalize
    then prints nothing, with any fuel: no cycle is reported and nothing
    panics. *)
Theorem X10_run_without_edges_reports_nothing (E : FS)
    (visits : list (string * Include)) (fuel : nat) (ks1 ks2 : list Z) :
  (∀ f i, (f, i) ∈ visits →
          getRelPath E f = None ∨ getRelPath E (Path i) = None) →
  range_order (adjList (run E visits)) ks1 →
  run E visits = circularImportCtx ∧
  finalize fuel ks1 ks2 (run E visits) = Some (Done [], circularImportCtx).
Proof.
  intros Hskip Hks. rewrite (run_skipped E visits Hskip) in *.
  split; [done|].
  assert (ks1 = []) as ->.
  { unfold range_order in Hks. simpl in Hks. rewrite map_to_list_empty in Hks.
    by apply Permutation_nil_r in Hks. }
  unfold finalize, lookForCycle, kahn_pass. simpl.
  rewrite kahn_loop_nil. by rewrite decide_False by (by rewrite map_size_empty; intros []).
Qed.

Lemma X10_run_without_edges_witness :
  let visits := [("a", Sample.inc "/etc/x.thrift" 1)] in
  run Sample.fs visits = circularImportCtx ∧
  finalize 0 [] [] (run Sample.fs visits) = Some (Done [], circularImportCtx).
Proof.
  apply (X10_run_without_edges_reports_nothing Sample.fs
           [("a", Sample.inc "/etc/x.thrift" 1)] 0 [] []).
  - intros f i [= -> ->]%list_elem_of_singleton. right. by vm_compute.
  - closed_order.
Defined.


(** ** Invariants of the worklist loop *)

(** A property [Q] of the in-degree map and of [count] that one decrement
    keeps, as long as the decrement does not wrap around, is kept by the
    whole loop on a graph small enough for no decrement to wrap around. *)
Section loop_invariant.
Variables (adj : gmap Z (list Z)) (L : nat) (Q : gmap Z Z → Z → Prop).
Hypothesis adj_short : ∀ u, length (succs adj u) ≤ L.
Hypothesis Q_relax : ∀ sources st s v,
  v ∈ succs adj s →
  (Int.min_int < deg (k_inDeg st) v ≤ Int.max_int)%Z →
  Q (k_inDeg st) (k_count st) →
  Q (k_inDeg (relax sources st v)) (k_count (relax sources st v)).

Lemma relax_all_keeps sources lo P0 s vs n st :
  (∀ v, v ∈ vs → v ∈ succs adj s) →
  gen_inv sources lo P0 n st →
  (Int.min_int ≤ lo - Z.of_nat (n + length vs))%Z →
  Q (k_inDeg st) (k_count st) →
  let st' := foldl (relax sources) st vs in Q (k_inDeg st') (k_count st').
Proof.
  revert n st. induction vs as [|v vs IH]; intros n st Hvs Hinv Hlo HQ;
    simpl in *; [done|].
  apply (IH (S n)).
  - intros u Hu. apply Hvs. by right.
  - apply (relax_gen_inv adj sources L lo P0 adj_short); [done|lia].
  - lia.
  - apply (Q_relax sources st s v); [apply Hvs; by left| |done].
    pose proof (gen_range _ _ _ _ _ Hinv v). lia.
Qed.

Lemma sources_keeps sources lo P0 ss n st :
  gen_inv sources lo P0 n st →
  (Int.min_int ≤ lo - Z.of_nat (n + length ss * L))%Z →
  Q (k_inDeg st) (k_count st) →
  let st' := foldl (process_source adj sources) st ss in
  Q (k_inDeg st') (k_count st').
Proof.
  revert n st. induction ss as [|s ss IH]; intros n st Hinv Hlo HQ; simpl in *;
    [done|].
  pose proof (adj_short s) as Hlen.
  apply (IH (n + L)).
  - apply (process_source_gen_inv adj sources L lo P0 adj_short); [done|lia].
  - lia.
  - apply (relax_all_keeps sources lo P0 s _ n); [done|done|lia|done].
Qed.

Lemma generation_keeps sources inDeg count lo :
  (∀ u, (lo ≤ deg inDeg u ≤ Int.max_int)%Z) →
  (Int.min_int ≤ lo - Z.of_nat (length sources * L))%Z →
  Q inDeg count →
  let st := generation adj sources inDeg count in Q (k_inDeg st) (k_count st).
Proof.
  intros Hlo Hmin HQ.
  apply (sources_keeps sources lo (positive inDeg) sources 0);
    [|simpl; lia|done].
  split; simpl; [|done|by left]. intros u. specialize (Hlo u). lia.
Qed.

Lemma kahn_loop_keeps fuel :
  ∀ n inDeg count sources lo r,
    size (positive inDeg) ≤ n →
    (∀ u, (lo ≤ deg inDeg u ≤ Int.max_int)%Z) →
    (Int.min_int
     ≤ lo - (Z.of_nat n + 1) * (Z.of_nat (length sources) + Z.of_nat n)
            * Z.of_nat L)%Z →
    Q inDeg count →
    kahn_loop fuel adj inDeg count sources = Some r →
    Q r.1 r.2.
Proof.
  induction fuel as [|fuel IH]; intros n inDeg count sources lo r Hn Hlo Hmin HQ.
  { destruct sources; [|done]. by intros [= <-]. }
  destruct (decide (sources = [])) as [->|Hne]; [by intros [= <-]|].
  rewrite kahn_loop_step by done. cbv zeta.
  destruct (generation_spec adj sources inDeg count L lo adj_short Hlo)
    as [Hr Hnew]; [nia|].
  pose proof (generation_keeps sources inDeg count lo Hlo) as HQ'.
  cbv zeta in Hr, Hnew, HQ'.
  set (st := generation adj sources inDeg count) in *.
  assert (Q (k_inDeg st) (k_count st)) as Hst by (apply HQ'; [nia|done]).
  destruct Hnew as [Hnil|[Hlt Hlen]].
  { rewrite Hnil, kahn_loop_nil. by intros [= <-]. }
  apply (IH (n - 1) _ _ _ (lo - Z.of_nat (length sources * L))%Z);
    [lia|done| |done].
  rewrite Hlen. nia.
Qed.

End loop_invariant.

(** On an accumulated state of at most a million insertions such a
    property goes from the start of the worklist loop to the end of the
    topological pass. *)
Lemma graph_inv_kahn_pass_keeps (Q : gmap Z Z → Z → Prop) ins cc ks fuel r :
  graph_inv ins cc →
  (Z.of_nat (length ins) ≤ 1000000)%Z →
  range_order (adjList cc) ks →
  (∀ sources st s v,
     v ∈ succs (adjList cc) s →
     (Int.min_int < deg (k_inDeg st) v ≤ Int.max_int)%Z →
     Q (k_inDeg st) (k_count st) →
     Q (k_inDeg (relax sources st v)) (k_count (relax sources st v))) →
  Q (inDegrees cc) (initial_sources ks (inDegrees cc)).1 →
  kahn_pass fuel ks (adjList cc) (inDegrees cc) = Some r →
  Q r.1 r.2.
Proof.
  intros Hinv Hlen Hks Hrelax. unfold kahn_pass.
  pose proof (initial_sources_length ks (inDegrees cc)) as Hsrc.
  pose proof (range_order_length _ _ Hks) as Hkl.
  pose proof (inv_vsize _ _ Hinv) as Hsz.
  destruct (initial_sources ks (inDegrees cc)) as [count0 sources].
  simpl in *. intros HQ.
  apply (kahn_loop_keeps (adjList cc) (length ins) Q)
    with (n := 2 * length ins) (lo := 0%Z).
  - intros u. by apply (graph_inv_succs ins cc u).
  - done.
  - pose proof (positive_size (inDegrees cc)).
    rewrite (graph_inv_size ins cc Hinv) in *. lia.
  - intros u. pose proof (graph_inv_deg_range ins cc u Hinv).
    unfold Int.max_int. lia.
  - unfold Int.min_int. nia.
  - done.
Qed.

(** ** What the topological pass counts *)

Lemma positive_insert (inDeg : gmap Z Z) (v d : Z) :
  positive (<[v := d]> inDeg)
  = if decide (0 < d)%Z then {[v]} ∪ positive inDeg
    else positive inDeg ∖ {[v]}.
Proof.
  apply set_eq. intros u.
  destruct (decide (0 < d)%Z) as [Hd|Hd];
    [rewrite elem_of_union|rewrite elem_of_difference];
    rewrite !positive_elem_of, deg_insert, elem_of_singleton;
    destruct (decide (u = v)); naive_solver lia.
Qed.

Lemma relax_counted N sources st v :
  (N ≤ Int.max_int)%Z →
  (Int.min_int < deg (k_inDeg st) v ≤ Int.max_int)%Z →
  counted N (k_inDeg st) (k_count st) →
  counted N (k_inDeg (relax sources st v)) (k_count (relax sources st v)).
Proof.
  intros HN Hv [Hc0 Hc]. unfold relax.
  rewrite int_sub_small
    by (unfold Int.in_range, Int.min_int, Int.max_int in *; lia).
  set (d := (deg (k_inDeg st) v - 1)%Z).
  destruct (decide (d = 0%Z)) as [Hd|Hd]; unfold counted; simpl;
    rewrite positive_insert.
  - rewrite decide_False by lia.
    assert (v ∈ positive (k_inDeg st)) as Hin
      by (apply positive_elem_of; lia).
    assert (size (positive (k_inDeg st) ∖ {[v]})
            = size (positive (k_inDeg st)) - 1) as ->.
    { rewrite size_difference by set_solver. by rewrite size_singleton. }
    assert (0 < size (positive (k_inDeg st))) as Hpos.
    { assert (size (positive (k_inDeg st)) ≠ 0); [|lia].
      apply size_non_empty_iff. set_solver. }
    rewrite int_add_small
      by (unfold Int.in_range, Int.min_int, Int.max_int in *; lia).
    lia.
  - split; [done|]. rewrite <-Hc. do 2 f_equal.
    case_decide as Hpos.
    + assert (v ∈ positive (k_inDeg st)) by (apply positive_elem_of; lia).
      f_equal. set_solver.
    + assert (v ∉ positive (k_inDeg st))
        by (rewrite positive_elem_of; lia).
      f_equal. set_solver.
Qed.

(** The first loop counts the keys whose in-degree is zero. *)
Lemma initial_sources_count ks inDeg :
  (Z.of_nat (length ks) < Int.max_int)%Z →
  (initial_sources ks inDeg).1
  = Z.of_nat (length (filter (λ v, deg inDeg v = 0%Z) ks)).
Proof.
  intros Hlen. unfold initial_sources.
  assert (∀ (acc : Z * list Z) (n : nat),
            acc.1 = Z.of_nat n →
            (Z.of_nat (n + length ks) < Int.max_int)%Z →
            (foldl (λ '(count, sources) v,
                      if decide (deg inDeg v = 0%Z)
                      then (Int.add count 1, sources ++ [v])
                      else (count, sources)) acc ks).1
            = Z.of_nat (n + length (filter (λ v, deg inDeg v = 0%Z) ks)))
    as Hgen.
  { clear Hlen. induction ks as [|v ks IH]; intros [count sources] n Hn Hlen;
      simpl in *.
    { by rewrite Nat.add_0_r. }
    rewrite filter_cons. destruct (decide (deg inDeg v = 0%Z)) as [Hz|Hz].
    - rewrite (IH _ (S n)); simpl.
      + f_equal. lia.
      + rewrite Hn, int_add_small
          by (unfold Int.in_range, Int.min_int, Int.max_int in *; lia). lia.
      + lia.
    - apply IH; [done|lia]. }
  apply (Hgen (0%Z, []) 0); [done|simpl; lia].
Qed.

Lemma filter_split_length {A} (P : A → Prop) `{∀ x, Decision (P x)} (l : list A) :
  length (filter P l) + length (filter (λ x, ¬ P x) l) = length l.
Proof.
  induction l as [|x l IH]; [done|]. rewrite !filter_cons.
  destruct (decide (P x)); [rewrite decide_False by tauto|rewrite decide_True by done];
    simpl; lia.
Qed.

(** At the start of the pass on an accumulated state, the keys of zero
    in-degree and the vertices of positive in-degree are all the keys. *)
Lemma graph_inv_initial_count ins cc ks :
  graph_inv ins cc → range_order (adjList cc) ks →
  length (filter (λ v, deg (inDegrees cc) v = 0%Z) ks)
  + size (positive (inDegrees cc)) = size (adjList cc).
Proof.
  intros Hinv Hks.
  rewrite <-(range_order_length _ _ Hks).
  rewrite <-(filter_split_length (λ v, deg (inDegrees cc) v = 0%Z) ks).
  f_equal.
  assert (NoDup ks) as Hnd.
  { unfold range_order in Hks. rewrite Hks. apply NoDup_fst_map_to_list. }
  rewrite <-(size_list_to_set
               (C := gset Z) (filter (λ v, deg (inDegrees cc) v ≠ 0%Z) ks))
    by (by apply NoDup_filter).
  f_equal. apply set_eq. intros v.
  rewrite positive_elem_of, elem_of_list_to_set, list_elem_of_filter.
  rewrite (range_order_elem_of _ _ v Hks).
  pose proof (graph_inv_deg_range ins cc v Hinv) as Hrange. split.
  - intros Hpos. split; [lia|]. apply (inv_keys _ _ Hinv).
    unfold deg in Hpos. destruct (inDegrees cc !! v); [by eexists|simpl in *; lia].
  - intros [Hne _]. lia.
Qed.

(** On an accumulated state of at most a million insertions, what the
    topological pass has counted and the vertices it leaves with a positive
    in-degree are together the vertices of the graph. *)
Lemma graph_inv_kahn_pass_count ins cc ks fuel inDeg' count :
  graph_inv ins cc →
  (Z.of_nat (length ins) ≤ 1000000)%Z →
  range_order (adjList cc) ks →
  kahn_pass fuel ks (adjList cc) (inDegrees cc) = Some (inDeg', count) →
  (count + Z.of_nat (size (positive inDeg')) = Z.of_nat (size (adjList cc)))%Z.
Proof.
  intros Hinv Hlen Hks Hpass.
  pose proof (range_order_length _ _ Hks) as Hkl.
  pose proof (inv_vsize _ _ Hinv) as Hsz.
  apply (graph_inv_kahn_pass_keeps
           (counted (Z.of_nat (size (adjList cc)))) ins) in Hpass;
    [by destruct Hpass|done..| |].
  - intros sources st s v _. apply relax_counted. unfold Int.max_int. lia.
  - rewrite initial_sources_count by (unfold Int.max_int; lia).
    pose proof (graph_inv_initial_count ins cc ks Hinv Hks).
    split; lia.
Qed.

(** Property X11.  On a state accumulated from at most a million include
    nodes, and for every order of the keys, [lookForCycle] answers "no
    cycle" exactly when the in-degree map it leaves behind has no positive
    entry: [count] misses [len(adjList)] by the number of vertices whose
    in-degree the worklist loop never brought down to zero. *)
Theorem X11_lookForCycle_verdict_is_positive_inDegree (E : FS)
    (visits : list (string * Include)) (ks1 ks2 : list Z) (fuel : nat)
    (inDeg' : gmap Z Z) (out : outcome (option (list Z) * bool)) :
  (Z.of_nat (length visits) ≤ 1000000)%Z →
  let cc := run E visits in
  range_order (adjList cc) ks1 →
  lookForCycle fuel ks1 ks2 (adjList cc) (inDegrees cc) = Some (inDeg', out) →
  out = Returned (None, false) ↔ ∀ v, (deg inDeg' v ≤ 0)%Z.
Proof.
  intros Hlen cc Hks. unfold lookForCycle.
  assert (graph_inv (insertions E visits) cc) as Hinv.
  { apply graph_inv_run. unfold Int.max_int. lia. }
  pose proof (insertions_length E visits) as Hins.
  destruct (kahn_pass fuel ks1 (adjList cc) (inDegrees cc))
    as [[inDeg1 count]|] eqn:Hkahn; [|done].
  apply (graph_inv_kahn_pass_count (insertions E visits)) in Hkahn;
    [|done|lia|done].
  assert ((∀ v, (deg inDeg1 v ≤ 0)%Z) ↔ size (positive inDeg1) = 0) as Hzero.
  { rewrite size_empty_iff. split.
    - intros Hall. apply elem_of_equiv_empty. intros v.
      rewrite positive_elem_of. specialize (Hall v). lia.
    - intros Hempty v. destruct (decide (0 < deg inDeg1 v)%Z) as [Hpos|]; [|lia].
      apply positive_elem_of in Hpos. set_solver. }
  case_decide as Hne.
  - destruct (findCycleVertices fuel ks2 (adjList cc)) as [[vs|msg]|]; [| |done];
      intros [= <- <-]; (split; [done|]); rewrite Hzero; lia.
  - intros [= <- <-]. split; [|done]. intros _. apply Hzero. lia.
Qed.

Lemma X11_lookForCycle_verdict_witness :
  let inDeg' : gmap Z Z := {[1 := 0; 2 := -1; 3 := -1; 4 := 1]}%Z in
  let out : outcome (option (list Z) * bool) := 
    Panicked "unreachable (expected a cycle to exist)" in
  out = Returned (None, false) ↔ ∀ v, (deg inDeg' v ≤ 0)%Z.
Proof.
  apply (X11_lookForCycle_verdict_is_positive_inDegree Sample.fs Sample.tree
           [1; 2; 3; 4]%Z [1; 2; 3; 4]%Z 9);
    [by vm_compute|closed_order|vm_compute; reflexivity].
Defined.


(** ** When the printing loop dereferences nil *)






(** ** What finalize does to the state *)

Lemma relax_lowered inDeg0 sources st v :
  is_Some (inDeg0 !! v) →
  (Int.min_int < deg (k_inDeg st) v ≤ Int.max_int)%Z →
  lowered inDeg0 (k_inDeg st) →
  lowered inDeg0 (k_inDeg (relax sources st v)).
Proof.
  intros Hkey Hv [Hdom Hle].
  assert (k_inDeg (relax sources st v)
          = <[v := (deg (k_inDeg st) v - 1)%Z]> (k_inDeg st)) as ->.
  { unfold relax.
    rewrite int_sub_small
      by (unfold Int.in_range, Int.min_int, Int.max_int in *; lia).
    by case_decide. }
  split.
  - rewrite dom_insert_L, Hdom. apply elem_of_dom in Hkey. set_solver.
  - intros u. rewrite deg_insert. specialize (Hle u).
    case_decide; [subst u|]; lia.
Qed.

Lemma lookForCycle_kahn_pass fuel ks1 ks2 adj inDeg inDeg' out :
  lookForCycle fuel ks1 ks2 adj inDeg = Some (inDeg', out) →
  ∃ count, kahn_pass fuel ks1 adj inDeg = Some (inDeg', count).
Proof.
  unfold lookForCycle.
  destruct (kahn_pass fuel ks1 adj inDeg) as [[inDeg1 count]|]; [|done].
  case_decide; [|intros [= <- _]; by eexists].
  destruct (findCycleVertices fuel ks2 adj) as [[vs|msg]|]; [| |done];
    intros [= <- _]; by eexists.
Qed.

(** Property X13.  On a state accumulated from at most a million include
    nodes, and for every order of the keys, finalize leaves the adjacency
    lists, the recorded include nodes and the two id tables as they were;
    in the in-degree map it adds no key, removes none and raises no value:
    every in-degree is the one of before, or a smaller one. *)
Theorem X13_finalize_only_lowers_inDegrees (E : FS)
    (visits : list (string * Include)) (ks1 ks2 : list Z) (fuel : nat)
    (r : result) (cc' : C) :
  (Z.of_nat (length visits) ≤ 1000000)%Z →
  let cc := run E visits in
  range_order (adjList cc) ks1 →
  finalize fuel ks1 ks2 cc = Some (r, cc') →
  adjList cc' = adjList cc ∧ edgeMeta cc' = edgeMeta cc ∧
  filenameToId cc' = filenameToId cc ∧ idToFilename cc' = idToFilename cc ∧
  dom (inDegrees cc') = dom (inDegrees cc) ∧
  ∀ v, (deg (inDegrees cc') v ≤ deg (inDegrees cc) v)%Z.
Proof.
  intros Hlen cc Hks Hfin.
  assert (graph_inv (insertions E visits) cc) as Hinv.
  { apply graph_inv_run. unfold Int.max_int. lia. }
  pose proof (insertions_length E visits) as Hins.
  assert (∃ inDeg' out,
            lookForCycle fuel ks1 ks2 (adjList cc) (inDegrees cc)
            = Some (inDeg', out) ∧ cc' = set_inDegrees inDeg' cc)
    as (inDeg' & out & Hlook & ->).
  { unfold finalize in Hfin.
    destruct (lookForCycle fuel ks1 ks2 (adjList cc) (inDegrees cc))
      as [[inDeg' [[imports cycle]|msg]]|]; [| |done].
    - destruct cycle; simplify_eq; by eauto.
    - simplify_eq. by eauto. }
  do 4 (split; [done|]). simpl.
  apply lookForCycle_kahn_pass in Hlook as [count Hpass].
  apply (graph_inv_kahn_pass_keeps
           (λ inDeg _, lowered (inDegrees cc) inDeg) (insertions E visits))
    in Hpass; [done|done|lia|done| |done].
  intros sources st s v Hv. apply relax_lowered.
  apply (inv_keys _ _ Hinv).
  by apply (graph_inv_succs (insertions E visits) cc s).
Qed.

Lemma X13_finalize_only_lowers_witness :
  let cc := run Sample.fs Sample.tree in
  let cc' := set_inDegrees {[1 := 0; 2 := -1; 3 := -1; 4 := 1]}%Z cc in
  adjList cc' = adjList cc ∧ edgeMeta cc' = edgeMeta cc ∧
  filenameToId cc' = filenameToId cc ∧ idToFilename cc' = idToFilename cc ∧
  dom (inDegrees cc') = dom (inDegrees cc) ∧
  ∀ v, (deg (inDegrees cc') v ≤ deg (inDegrees cc) v)%Z.
Proof.
  eapply (X13_finalize_only_lowers_inDegrees Sample.fs Sample.tree
            [1; 2; 3; 4]%Z [1; 2; 3; 4]%Z 9);
    [by vm_compute|closed_order|vm_compute; reflexivity].
Defined.


(** ** Termination of the worklist loop *)

(** One generation is one run of decrements, over the adjacency lists of
    the worklist taken in order. *)
Lemma generation_flat adj sources inDeg count :
  generation adj sources inDeg count
  = foldl (relax sources) (mkKahn inDeg count []) (sources ≫= succs adj).
Proof.
  unfold generation.
  assert (∀ ss st, foldl (process_source adj sources) st ss
                   = foldl (relax sources) st (ss ≫= succs adj)) as Hgen.
  { induction ss as [|s ss IH]; intros st; simpl; [done|].
    by rewrite foldl_app, IH. }
  apply Hgen.
Qed.

(** The decrements of a generation, with no reference to a graph. *)
Lemma relax_range sources lo P0 n st v :
  gen_inv sources lo P0 n st → (Int.min_int < lo - Z.of_nat n)%Z →
  gen_inv sources lo P0 (S n) (relax sources st v).
Proof.
  apply (relax_gen_inv ∅ sources 0 lo P0). intros u. unfold succs.
  by rewrite lookup_empty.
Qed.

Lemma relax_appended sources lo P0 n st v :
  gen_inv sources lo P0 n st → (Int.min_int < lo - Z.of_nat n)%Z →
  appended sources P0 st → appended sources P0 (relax sources st v).
Proof.
  intros [Hr Hp _] Hlo Hnew. unfold relax.
  pose proof (Hr v) as Hv.
  rewrite int_sub_small
    by (unfold Int.in_range, Int.min_int, Int.max_int in *; lia).
  destruct (decide (deg (k_inDeg st) v - 1 = 0)%Z) as [Hd|Hd]; unfold appended;
    simpl.
  - right. exists v. split; [|split; [|done]].
    + apply Hp, positive_elem_of. lia.
    + rewrite positive_elem_of, deg_insert, decide_True by done. lia.
  - destruct Hnew as [Hnil|(w & Hw & Hnot & Heq)]; [by left|].
    right. exists w. split; [done|]. split; [|done].
    rewrite positive_elem_of in Hnot. rewrite positive_elem_of, deg_insert.
    case_decide; [subst w|]; lia.
Qed.

Lemma relax_all_appended sources lo P0 vs n st :
  gen_inv sources lo P0 n st →
  (Int.min_int ≤ lo - Z.of_nat (n + length vs))%Z →
  appended sources P0 st →
  gen_inv sources lo P0 (n + length vs) (foldl (relax sources) st vs) ∧
  appended sources P0 (foldl (relax sources) st vs).
Proof.
  revert n st. induction vs as [|v vs IH]; intros n st Hinv Hlo Hnew; simpl in *.
  { by rewrite Nat.add_0_r. }
  replace (n + S (length vs)) with (S n + length vs) by lia.
  apply IH; [apply relax_range; [done|lia]|lia|].
  apply (relax_appended sources lo P0 n); [done|lia|done].
Qed.

(** One generation of at most [D] decrements, from in-degrees that are at
    least [lo]: no in-degree wraps around, no vertex gains a positive
    in-degree, and the next worklist is empty or the current one followed
    by a vertex that has just lost its positive in-degree. *)
Lemma generation_appended adj sources inDeg count lo D :
  (∀ u, (lo ≤ deg inDeg u ≤ Int.max_int)%Z) →
  length (sources ≫= succs adj) ≤ D →
  (Int.min_int ≤ lo - Z.of_nat D)%Z →
  let st := generation adj sources inDeg count in
  (∀ u, (lo - Z.of_nat D ≤ deg (k_inDeg st) u ≤ Int.max_int)%Z) ∧
  positive (k_inDeg st) ⊆ positive inDeg ∧
  appended sources (positive inDeg) st.
Proof.
  intros Hlo HD Hmin st. unfold st. rewrite generation_flat.
  destruct (relax_all_appended sources lo (positive inDeg)
              (sources ≫= succs adj) 0 (mkKahn inDeg count []))
    as [[Hr Hp _] Hnew].
  - split; simpl; [|done|by left]. intros u. specialize (Hlo u). lia.
  - simpl. lia.
  - by left.
  - split; [|done]. intros u. specialize (Hr u). simpl in Hr. lia.
Qed.

(** The worklist loop returns within [n + 1] generations when at most [n]
    vertices have a positive in-degree, the worklist repeats no vertex and
    holds none of positive in-degree, and a worklist without repetition
    causes at most [D] decrements: the in-degrees then lose at most [D] in
    a generation, and must not reach the smallest [int] in [n + 1] of them. *)
Lemma kahn_loop_returns adj D :
  (∀ sources, NoDup sources → length (sources ≫= succs adj) ≤ D) →
  ∀ fuel n inDeg count sources lo,
    size (positive inDeg) ≤ n → n < fuel →
    (∀ u, (lo ≤ deg inDeg u ≤ Int.max_int)%Z) →
    NoDup sources → (∀ s, s ∈ sources → s ∉ positive inDeg) →
    (Int.min_int ≤ lo - (Z.of_nat n + 1) * Z.of_nat D)%Z →
    ∃ r, kahn_loop fuel adj inDeg count sources = Some r.
Proof.
  intros HD fuel.
  induction fuel as [|fuel IH];
    intros n inDeg count sources lo Hn Hfuel Hlo Hnd Hzero Hmin; [lia|].
  destruct (decide (sources = [])) as [->|Hne]; [by eexists|].
  rewrite kahn_loop_step by done. cbv zeta.
  destruct (generation_appended adj sources inDeg count lo D Hlo (HD _ Hnd))
    as (Hr & Hsub & Hnew); [nia|].
  cbv zeta in Hr, Hsub, Hnew.
  set (st := generation adj sources inDeg count) in *.
  destruct Hnew as [Hnil|(w & Hw & Hnot & Heq)].
  { rewrite Hnil, kahn_loop_nil. by eexists. }
  assert (size (positive (k_inDeg st)) < size (positive inDeg)) as Hlt.
  { apply subset_size. split; [done|]. intros Hback. by apply Hnot, Hback. }
  rewrite Heq.
  apply (IH (n - 1) _ _ _ (lo - Z.of_nat D)%Z); [lia|lia|done| | |nia].
  - apply NoDup_app. split; [done|]. split; [|apply NoDup_singleton].
    intros s Hs Hsw%list_elem_of_singleton. subst s. by apply (Hzero w).
  - intros s [Hs|Hsw%list_elem_of_singleton]%elem_of_app; [|by subst s].
    intros Hpos. by apply (Hzero s Hs), Hsub.
Qed.

(** The first worklist: the keys of in-degree zero, in key order. *)
Lemma initial_sources_filter ks inDeg :
  (initial_sources ks inDeg).2 = filter (λ v, deg inDeg v = 0%Z) ks.
Proof.
  unfold initial_sources.
  assert (∀ acc : Z * list Z,
            (foldl (λ '(count, sources) v,
                      if decide (deg inDeg v = 0%Z)
                      then (Int.add count 1, sources ++ [v])
                      else (count, sources)) acc ks).2
            = acc.2 ++ filter (λ v, deg inDeg v = 0%Z) ks) as Hgen.
  { induction ks as [|v ks IH]; intros [count sources]; simpl.
    { by rewrite app_nil_r. }
    rewrite IH, filter_cons. case_decide; simpl; [|done].
    by rewrite <-app_assoc. }
  apply (Hgen (0%Z, [])).
Qed.

(** Worklists without repetition cause no more decrements than there were
    insertions: every entry of an adjacency list is one insertion. *)
Lemma filter_disjoint_length {A} (P Q : A → Prop)
    `{∀ x, Decision (P x)} `{∀ x, Decision (Q x)} (l : list A) :
  (∀ x, P x → Q x → False) →
  length (filter P l) + length (filter Q l)
  = length (filter (λ x, P x ∨ Q x) l).
Proof.
  intros Hdisj. induction l as [|x l IH]; [done|]. rewrite !filter_cons.
  destruct (decide (P x)) as [HP|HP]; destruct (decide (Q x)) as [HQ|HQ].
  - by destruct (Hdisj x).
  - rewrite decide_True by tauto. simpl. lia.
  - rewrite decide_True by tauto. simpl. lia.
  - rewrite decide_False by tauto. done.
Qed.

Lemma succs_insertions ins cc a :
  graph_inv ins cc → trace_inv ins cc →
  length (succs (adjList cc) a)
  ≤ length (filter (λ e, filenameToId cc !! e.1.1 = Some a) ins).
Proof.
  intros Hinv Htr. unfold succs.
  destruct (adjList cc !! a) as [l|] eqn:Hadj; simpl; [|lia].
  destruct (proj1 (inv_vertex _ _ Hinv a)) as [p Hp]; [by eexists|].
  pose proof (tr_adj _ _ Htr p a Hp) as Hall.
  unfold succs in Hall. rewrite Hadj in Hall. simpl in Hall.
  rewrite (Forall2_length _ _ _ Hall). unfold insertions_from.
  apply Nat.eq_le_incl. f_equal. apply list_filter_iff. intros e.
  split; [by intros ->|].
  intros He. apply (tr_back _ _ Htr) in He, Hp. congruence.
Qed.

Lemma worklist_decrements ins cc sources :
  graph_inv ins cc → trace_inv ins cc → NoDup sources →
  length (sources ≫= succs (adjList cc)) ≤ length ins.
Proof.
  intros Hinv Htr Hnd.
  trans (length (filter (λ e, filenameToId cc !! e.1.1 ∈ (Some <$> sources))
                        ins)); [|apply length_filter].
  induction Hnd as [|a l Ha Hnd IH]; [simpl; lia|].
  rewrite bind_cons, length_app.
  pose proof (succs_insertions ins cc a Hinv Htr) as Hsuccs.
  assert (filter (λ e, filenameToId cc !! e.1.1 ∈ (Some <$> a :: l)) ins
          = filter (λ e, filenameToId cc !! e.1.1 = Some a ∨
                         filenameToId cc !! e.1.1 ∈ (Some <$> l)) ins) as ->.
  { apply list_filter_iff. intros e. by rewrite fmap_cons, elem_of_cons. }
  rewrite <-filter_disjoint_length; [lia|].
  intros e He (b & Hb & Hbl)%list_elem_of_fmap. rewrite He in Hb.
  by simplify_eq.
Qed.

(** The topological pass returns on an accumulated state of at most two
    thousand million insertions, within as many generations as there are
    vertices of positive in-degree, plus one: a generation decrements at
    most once per insertion, so that no in-degree gets near the smallest
    [int]. *)
Lemma graph_inv_kahn_pass_returns ins cc ks fuel :
  graph_inv ins cc → trace_inv ins cc →
  (Z.of_nat (length ins) ≤ 2000000000)%Z →
  range_order (adjList cc) ks →
  size (positive (inDegrees cc)) < fuel →
  ∃ r, kahn_pass fuel ks (adjList cc) (inDegrees cc) = Some r.
Proof.
  intros Hinv Htr Hlen Hks Hfuel. unfold kahn_pass.
  pose proof (initial_sources_filter ks (inDegrees cc)) as Hsrc.
  destruct (initial_sources ks (inDegrees cc)) as [count sources].
  simpl in Hsrc. subst sources.
  pose proof (inv_vsize _ _ Hinv) as Hsz.
  pose proof (positive_size (inDegrees cc)) as Hpos.
  rewrite (graph_inv_size ins cc Hinv) in Hpos.
  apply (kahn_loop_returns (adjList cc) (length ins))
    with (n := size (positive (inDegrees cc))) (lo := 0%Z).
  - intros sources. by apply worklist_decrements.
  - done.
  - done.
  - intros u. pose proof (graph_inv_deg_range ins cc u Hinv).
    unfold Int.max_int. lia.
  - apply NoDup_filter. unfold range_order in Hks. rewrite Hks.
    apply NoDup_fst_map_to_list.
  - intros s [Hs _]%list_elem_of_filter. rewrite positive_elem_of. lia.
  - unfold Int.min_int. nia.
Qed.

(** Property X14.  On a state accumulated from at most two thousand
    million include nodes, and for every order of the keys, the worklist
    loop of [lookForCycle] runs its body at most once more than there are
    vertices of positive in-degree, that is files included by some file:
    the topological pass returns with that much fuel. *)
Theorem X14_worklist_loop_generations (E : FS)
    (visits : list (string * Include)) (ks : list Z) (fuel : nat) :
  (Z.of_nat (length visits) ≤ 2000000000)%Z →
  let cc := run E visits in
  range_order (adjList cc) ks →
  size (positive (inDegrees cc)) < fuel →
  ∃ inDeg' count,
    kahn_pass fuel ks (adjList cc) (inDegrees cc) = Some (inDeg', count).
Proof.
  intros Hlen cc Hks Hfuel.
  pose proof (insertions_length E visits) as Hins.
  destruct (graph_inv_kahn_pass_returns (insertions E visits) cc ks fuel)
    as [[inDeg' count] Hkahn]; [| |lia|done|done|by eauto].
  - apply graph_inv_run. unfold Int.max_int. lia.
  - apply trace_inv_run. unfold Int.max_int. lia.
Qed.

Lemma X14_worklist_loop_witness :
  let cc := run Sample.fs Sample.tree in
  ∃ inDeg' count,
    kahn_pass 4 [4; 3; 2; 1]%Z (adjList cc) (inDegrees cc)
    = Some (inDeg', count).
Proof.
  apply (X14_worklist_loop_generations Sample.fs Sample.tree [4; 3; 2; 1]%Z 4);
    [by vm_compute|closed_order|vm_compute; lia].
Defined.


